(** * The redaction engine of [examples/process_docx.py]

    A shallow embedding of the pure core of the script: the category
    taxonomy ([ALL_PII_TYPES] and the three groups), the replacement
    synthesizer ([PII_TO_FAKER], [get_replacement]), the span redactor
    ([replace_pii_in_text]) and the category selector
    ([normalize_pii_types], [get_pii_types]); and of what the two commands
    do with it: the text extraction ([extract_all_text]), the loop of
    [cmd_detect] that fills [results], the loop of [cmd_replace] over the
    paragraphs and its output path.  The detector is a parameter, as Faker
    is.  The loop of [cmd_replace] over the table cells is left out: it
    writes to cell objects that python-docx may list more than once.

    Modelling choices.
    - A Python [str] is a list of Unicode code points; indices and
      slices count code points.  What [str.upper], [str.isupper] and
      [str.strip] read in the Unicode character database of the
      interpreter is not code of the script: the database is a parameter
      ([UnicodeData]), of which only its ASCII range is fixed, and every
      theorem holds for every such database.  The sample runs at the end
      take the database that knows the ASCII range alone, and then one
      that knows a few characters above it.
    - The entity dictionaries returned by the detector are records whose
      four fields are optional, one per dictionary key; subscripting a
      missing key raises [KeyError], and subscripting a string out of
      range raises [IndexError].
    - [fake] is the module-level global: [None] when the Faker import
      failed, otherwise a Faker instance, of which only the generator state
      matters.  What the Faker-backed branch of a [PII_TO_FAKER] lambda
      returns is not code of the script: it is the section variable
      [faker], a function of the dictionary key and the generator state.
    - Offsets are Python integers ([Z]); slicing follows Python, negative
      indices included. *)

From Stdlib Require Import Ascii String NArith ZArith Lia Permutation.
From stdpp Require Import base list gmap strings sorting.

Local Open Scope Z_scope.

(** ** Python strings *)

(** A character is a Unicode code point. *)
Definition char := N.

Definition str := list char.

(** The code point of a character written in ASCII. *)
Definition chr (c : ascii) : char := N_of_ascii c.
Coercion chr : ascii >-> char.

(** A string literal of this file, all of them ASCII, as a [str]. *)
Definition py (s : string) : str := map chr (list_ascii_of_string s).
Arguments py s%_string.

(** What the Unicode character database says on the ASCII range: the
    upper-case letters are 65 to 90, the lower-case ones 97 to 122, white
    space is 9 to 13 and 28 to 32, and up-casing a lower-case letter takes
    32 off its code point. *)
Definition ascii_isupper (c : char) : bool := ((65 <=? c) && (c <=? 90))%N.

Definition ascii_islower (c : char) : bool := ((97 <=? c) && (c <=? 122))%N.

Definition ascii_isspace (c : char) : bool :=
  (((9 <=? c) && (c <=? 13)) || ((28 <=? c) && (c <=? 32)))%N.

Definition ascii_toupper (c : char) : char :=
  if ascii_islower c then (c - 32)%N else c.

(** The Unicode character database, as CPython consults it:
    [Py_UNICODE_ISUPPER], [Py_UNICODE_ISLOWER], [Py_UNICODE_ISTITLE],
    [Py_UNICODE_ISSPACE], and the full upper-case mapping of a code point,
    which may be several code points long.  Below 128 it is what the ASCII
    range is known to be; above, nothing is assumed of it. *)
Class UnicodeData := {
  unicode_isupper : char -> bool;
  unicode_islower : char -> bool;
  unicode_istitle : char -> bool;
  unicode_isspace : char -> bool;
  unicode_toupper : char -> list char;
  unicode_isupper_ascii :
    forall c, (c < 128)%N -> unicode_isupper c = ascii_isupper c;
  unicode_islower_ascii :
    forall c, (c < 128)%N -> unicode_islower c = ascii_islower c;
  unicode_istitle_ascii :
    forall c, (c < 128)%N -> unicode_istitle c = false;
  unicode_isspace_ascii :
    forall c, (c < 128)%N -> unicode_isspace c = ascii_isspace c;
  unicode_toupper_ascii :
    forall c, (c < 128)%N -> unicode_toupper c = [ascii_toupper c]
}.

(** The database that knows the ASCII range and holds every other code
    point to be without case and no white space. *)
Definition ascii_unicode : UnicodeData :=
  {| unicode_isupper := ascii_isupper;
     unicode_islower := ascii_islower;
     unicode_istitle := fun _ => false;
     unicode_isspace := ascii_isspace;
     unicode_toupper := fun c => [ascii_toupper c];
     unicode_isupper_ascii := fun _ _ => eq_refl;
     unicode_islower_ascii := fun _ _ => eq_refl;
     unicode_istitle_ascii := fun _ _ => eq_refl;
     unicode_isspace_ascii := fun _ _ => eq_refl;
     unicode_toupper_ascii := fun _ _ => eq_refl |}.

(** A database that knows, above the ASCII range, a few code points as
    Unicode has them: the letters U+00C9 and U+00DA, upper-case, and
    U+00E9 and U+00FA, lower-case, of which they are the upper-case
    mappings; the lower-case letter U+00DF, which up-cases to two
    characters, ["SS"]; and the white space U+0085 and U+00A0. *)
Definition beyond_isupper (c : char) : bool :=
  if (c <? 128)%N then ascii_isupper c else ((c =? 201) || (c =? 218))%N.

Definition beyond_islower (c : char) : bool :=
  if (c <? 128)%N then ascii_islower c
  else ((c =? 223) || (c =? 233) || (c =? 250))%N.

Definition beyond_isspace (c : char) : bool :=
  if (c <? 128)%N then ascii_isspace c else ((c =? 133) || (c =? 160))%N.

Definition beyond_toupper (c : char) : list char :=
  if (c <? 128)%N then [ascii_toupper c]
  else if (c =? 223)%N then [83; 83]%N
  else if (c =? 233)%N then [201%N]
  else if (c =? 250)%N then [218%N]
  else [c].

Definition beyond_unicode : UnicodeData.
Proof.
  refine {| unicode_isupper := beyond_isupper;
            unicode_islower := beyond_islower;
            unicode_istitle := fun _ => false;
            unicode_isspace := beyond_isspace;
            unicode_toupper := beyond_toupper |};
    intros c Hc; try reflexivity;
    unfold beyond_isupper, beyond_islower, beyond_isspace, beyond_toupper;
    apply N.ltb_lt in Hc; now rewrite Hc.
Defined.

Section Casing.

Context {U : UnicodeData}.

(** [s.upper()]: the upper-case mappings of the characters, one after the
    other. *)
Definition str_upper (s : str) : str := flat_map unicode_toupper s.

(** The loop of [s.isupper()] in CPython: a lower-case or title-case
    character answers [False] at once, and the flag [cased] records
    whether an upper-case character has been met. *)
Fixpoint isupper_from (cased : bool) (s : str) : bool :=
  match s with
  | [] => cased
  | c :: rest =>
      if unicode_islower c || unicode_istitle c then false
      else isupper_from (cased || unicode_isupper c) rest
  end.

(** [s.isupper()]: CPython answers for a string of one character by the
    character alone, and runs the loop on any other. *)
Definition str_isupper (s : str) : bool :=
  match s with
  | [c] => unicode_isupper c
  | _ => isupper_from false s
  end.

End Casing.

(** [s.replace(old, new)] for one-character [old] and [new]. *)
Definition replace_char (old new : char) (s : str) : str :=
  map (fun c => if N.eqb c old then new else c) s.
Arguments replace_char (old new)%_char s.

(** [s.startswith(p)] *)
Fixpoint startswith (p s : str) : bool :=
  match p, s with
  | [], _ => true
  | _ :: _, [] => false
  | a :: p', b :: s' => N.eqb a b && startswith p' s'
  end.

(** [s.replace(old, new, 1)]: the left-most occurrence of [old] is replaced,
    and an empty [old] matches at index 0. *)
Fixpoint replace_first (old new s : str) : str :=
  if startswith old s then new ++ drop (length old) s
  else match s with
       | [] => []
       | c :: rest => c :: replace_first old new rest
       end.

(** Slice bounds: a negative index counts from the end, and what is still
    negative is 0 ([take] and [drop] clamp at the length). *)
Definition slice_index (n : nat) (i : Z) : nat :=
  if i <? 0 then Z.to_nat (Z.of_nat n + i) else Z.to_nat i.

(** [s[:i]] and [s[i:]] *)
Definition slice_to (s : str) (i : Z) : str := take (slice_index (length s) i) s.
Definition slice_from (s : str) (i : Z) : str := drop (slice_index (length s) i) s.

(** ** Category taxonomy *)

Definition ALL_PII_TYPES : list str := map py [
  "number"; "location address street"; "pin"; "name medical professional"; "accounts";
  "policy number"; "marital status"; "passport number"; "ssn"; "discharge date"; "occupation";
  "date"; "origin"; "test result"; "name"; "location zip"; "gender"; "organization medical facility";
  "esidno"; "zip"; "date interval"; "dob"; "rate"; "organization"; "location state";
  "confirmation number"; "name given"; "time"; "cvv"; "month"; "credit card"; "planduration";
  "filename"; "age"; "numerical pii"; "money"; "physical attribute"; "address";
  "credit card expiration"; "account number"; "location"; "language";
  "location city"; "duration"; "password"; "medical process"; "county"; "phone number";
  "condition"; "email address"; "location address"; "name family"; "location country"
]%string.

Definition PII_GROUP : list str := map py [
  "name"; "name given"; "name family"; "phone number"; "email address";
  "ssn"; "dob"; "age"; "gender"; "marital status"; "origin";
  "location address"; "location address street"; "location city";
  "location state"; "location country"; "location zip"; "location";
  "address"; "zip"; "county"; "passport number"; "occupation";
  "language"; "physical attribute"; "password"; "filename";
  "date"; "time"; "duration"; "date interval"; "month"; "number";
  "numerical pii"; "esidno"; "confirmation number"
]%string.

Definition PHI_GROUP : list str := map py [
  "name"; "name medical professional"; "dob"; "age"; "gender";
  "phone number"; "email address"; "ssn"; "location address";
  "organization medical facility"; "condition"; "medical process";
  "test result"; "discharge date"; "policy number"; "account number";
  "location city"; "location state"; "location zip"
]%string.

Definition PCI_GROUP : list str := map py [
  "credit card"; "credit card expiration"; "cvv"; "account number";
  "accounts"; "pin"; "money"; "rate"; "planduration"
]%string.

(** ** Category selector *)

(** The parsed command line, as far as [get_pii_types] reads it:
    [--pii-types] is [None] when absent, and the three flags are
    [store_true] booleans. *)
Record Args := {
  pii_types : option (list str);
  pii : bool;
  phi : bool;
  pci : bool
}.

Definition normalize_pii_types (pii_types : list str) : list str :=
  map (replace_char "_" " ") pii_types.

(** [if args.pii_types:] is the truth value of the attribute: [None] and
    the empty list are both false. *)
Definition get_pii_types (args : Args) : list str :=
  match pii_types args with
  | Some (t :: ts) => normalize_pii_types (t :: ts)
  | _ =>
      if pii args then PII_GROUP
      else if phi args then PHI_GROUP
      else if pci args then PCI_GROUP
      else ALL_PII_TYPES
  end.

(** ** Exceptions and the effects of the redactor *)

Inductive exn : Type :=
  | KeyError (key : str)
  | IndexError.

Inductive result (A : Type) : Type :=
  | Ok (a : A)
  | Raise (e : exn).
Arguments Ok {A} a.
Arguments Raise {A} e.

(** The table of fallback constants of [PII_TO_FAKER]: each key with the
    string its lambda returns when [fake] is [None]. *)
Definition PII_TO_FAKER_fallbacks : list (string * string) := [
  ("account number", "ACC1234567890");
  ("accounts", "ACC1234567890");
  ("address", "123 Main St, City, State 12345");
  ("age", "35");
  ("condition", "Medical Condition");
  ("confirmation number", "CONF12345");
  ("county", "Sample County");
  ("credit card", "4111-1111-1111-1111");
  ("credit card expiration", "12/25");
  ("cvv", "123");
  ("date", "2024-01-01");
  ("date interval", "2024-01-01 to 2024-12-31");
  ("discharge date", "2024-03-15");
  ("dob", "01/01/1990");
  ("duration", "30 days");
  ("email address", "user@example.com");
  ("esidno", "ESI123456789");
  ("filename", "document.pdf");
  ("gender", "Person");
  ("language", "English");
  ("location", "City Name");
  ("location address", "123 Main St, City, State 12345");
  ("location address street", "123 Main Street");
  ("location city", "Anytown");
  ("location country", "United States");
  ("location state", "California");
  ("location zip", "12345");
  ("marital status", "Status");
  ("medical process", "Medical Procedure");
  ("money", "$50,000");
  ("month", "January");
  ("name", "John Doe");
  ("name family", "Doe");
  ("name given", "John");
  ("name medical professional", "Dr. Smith");
  ("number", "12345");
  ("numerical pii", "NUM123456");
  ("occupation", "Professional");
  ("organization", "Example Corp");
  ("organization medical facility", "General Hospital");
  ("origin", "Country");
  ("passport number", "P12345678");
  ("password", "SecurePass123");
  ("phone number", "(555) 123-4567");
  ("physical attribute", "Description");
  ("pin", "1234");
  ("planduration", "12 months");
  ("policy number", "POL-12345678");
  ("rate", "5%");
  ("ssn", "123-45-6789");
  ("test result", "Result");
  ("time", "12:00:00");
  ("zip", "12345")
]%string.

(** An entity dictionary of the detector: the keys ['label'], ['text'],
    ['start'] and ['end'], each present or not. *)
Record Entity := {
  ent_label : option str;
  ent_text : option str;
  ent_start : option Z;
  ent_end : option Z
}.

Section Synthesizer.

Context {U : UnicodeData}.

(** The generator state of a Faker instance, and the value computed by the
    Faker-backed branch of the lambda registered under a key, with the
    state it leaves behind. *)
Variable Rng : Type.
Variable faker : str -> Rng -> str * Rng.

(** The global [fake]. *)
Definition Fake := option Rng.

(** Computations that read and advance [fake] and may raise. *)
Definition M (A : Type) : Type := Fake -> result (A * Fake).

Definition ret {A} (a : A) : M A := fun fake => Ok (a, fake).

Definition bind {A B} (m : M A) (k : A -> M B) : M B :=
  fun fake =>
    match m fake with
    | Ok (a, fake') => k a fake'
    | Raise e => Raise e
    end.

Definition raise {A} (e : exn) : M A := fun _ => Raise e.

Local Notation "x <- m ;; k" := (bind m (fun x => k))
  (at level 100, m at next level, right associativity).

(** [d[key]] on an optional field. *)
Definition getitem {A} (field : option A) (key : string) : M A :=
  match field with
  | Some v => ret v
  | None => raise (KeyError (py key))
  end.

(** [s[i]], a string of one character. *)
Definition getchar (s : str) (i : nat) : M str :=
  match s !! i with
  | Some c => ret [c]
  | None => raise IndexError
  end.

(** A registered generator, [lambda: <Faker expression> if fake else
    <constant>], called. *)
Definition generator (key fallback : string) : Fake -> str * Fake :=
  fun fake =>
    match fake with
    | Some g => let '(v, g') := faker (py key) g in (v, Some g')
    | None => (py fallback, None)
    end.

Definition PII_TO_FAKER : gmap str (Fake -> str * Fake) :=
  list_to_map
    (map (fun kv => (py (fst kv), generator (fst kv) (snd kv)))
         PII_TO_FAKER_fallbacks).

(** Calling a registered lambda. *)
Definition call (lam : Fake -> str * Fake) : M str :=
  fun fake => Ok (lam fake).

Definition get_replacement (pii_type original_text : str) : M str :=
  match PII_TO_FAKER !! pii_type with
  | Some lam => call lam
  | None => ret (py "[" ++ replace_char " " "_" (str_upper pii_type) ++ py "]")
  end.

(** ** Span redactor *)

(** The truth value of a string: the empty string is false. *)
Definition truthy (s : str) : bool :=
  match s with
  | [] => false
  | _ :: _ => true
  end.

(** The block under [# Preserve capitalization]: [and] and the conditional
    expression evaluate their subscripts only behind their guards. *)
Definition preserve_capitalization (entity_text replacement : str) : M str :=
  if str_isupper entity_text then ret (str_upper replacement)
  else if truthy entity_text then
    first <- getchar entity_text 0 ;;
    if str_isupper first then
      if (1 <? length replacement)%nat then
        r0 <- getchar replacement 0 ;;
        ret (str_upper r0 ++ drop 1 replacement)
      else ret (str_upper replacement)
    else ret replacement
  else ret replacement.

(** The sort key [lambda x: x.get('start', 0)]. *)
Definition start_key (x : Entity) : Z := default 0 (ent_start x).

(** [sorted(entities, key=..., reverse=True)]: a stable sort, so that
    entities of equal key keep the order of the input list. *)
Fixpoint insert_desc (x : Entity) (l : list Entity) : list Entity :=
  match l with
  | [] => [x]
  | y :: l' =>
      if start_key y <=? start_key x then x :: y :: l'
      else y :: insert_desc x l'
  end.

Definition sorted_desc (entities : list Entity) : list Entity :=
  foldr insert_desc [] entities.

(** The body of the [for] loop. *)
Definition redact_entity (entity : Entity) (modified_text : str) : M str :=
  label <- getitem (ent_label entity) "label" ;;
  text <- getitem (ent_text entity) "text" ;;
  replacement <- get_replacement label text ;;
  replacement <- preserve_capitalization text replacement ;;
  match ent_start entity, ent_end entity with
  | Some start, Some end_ =>
      ret (slice_to modified_text start ++ replacement
             ++ slice_from modified_text end_)
  | _, _ => ret (replace_first text replacement modified_text)
  end.

Fixpoint redact_loop (sorted_entities : list Entity) (modified_text : str)
  : M str :=
  match sorted_entities with
  | [] => ret modified_text
  | entity :: rest =>
      modified_text' <- redact_entity entity modified_text ;;
      redact_loop rest modified_text'
  end.

Definition replace_pii_in_text (text : str) (entities : list Entity) : M str :=
  match entities with
  | [] => ret text
  | _ :: _ => redact_loop (sorted_desc entities) text
  end.

End Synthesizer.

Arguments ret {Rng A} a.
Arguments bind {Rng A B} m k.
Arguments raise {Rng A} e.
Arguments getitem {Rng A} field key.
Arguments getchar {Rng} s i.
Arguments call {Rng} lam.
Arguments preserve_capitalization {U Rng} entity_text replacement.
Arguments generator {Rng} faker key fallback.
Arguments PII_TO_FAKER {Rng} faker.
Arguments get_replacement {U Rng} faker pii_type original_text.
Arguments redact_entity {U Rng} faker entity modified_text.
Arguments redact_loop {U Rng} faker sorted_entities modified_text.
Arguments replace_pii_in_text {U Rng} faker text entities.

(** ** What the claims speak of *)

(** The keys of [PII_TO_FAKER]: the categories with a registered generator. *)
Definition registered_categories : list str :=
  map (fun kv => py (fst kv)) PII_TO_FAKER_fallbacks.

Section Casings.

Context {U : UnicodeData}.

(** [<CATEGORY_IN_UPPER_SNAKE_CASE>]: the category up-cased, and every
    space of the result turned into an underscore. *)
Definition upper_snake_case (category : str) : str :=
  replace_char " " "_" (str_upper category).

(** A string is entirely upper-case, for Python: if it is one character,
    when the character is upper-case; otherwise when it has an upper-case
    character and no lower-case or title-case one.  Characters without
    case (digits, spaces, punctuation) do not count, as in
    ["JOHN SMITH"]. *)
Definition entirely_upper (s : str) : Prop :=
  match s with
  | [c] => unicode_isupper c = true
  | _ =>
      (exists c, c ∈ s /\ unicode_isupper c = true)
      /\ (forall c, c ∈ s ->
            unicode_islower c = false /\ unicode_istitle c = false)
  end.

Definition first_char_upper (s : str) : Prop :=
  exists c rest, s = c :: rest /\ unicode_isupper c = true.

End Casings.

(** Every character is in the ASCII range. *)
Definition is_ascii (s : str) : Prop := Forall (fun c => (c < 128)%N) s.

(** [needle] occurs in [s] at index [i]. *)
Definition occurs_at (needle s : str) (i : nat) : Prop :=
  exists pre post, s = pre ++ needle ++ post /\ length pre = i.

(** [s[i:j]] *)
Definition slice (s : str) (i j : Z) : str :=
  let a := slice_index (length s) i in
  let b := slice_index (length s) j in
  take (b - a) (drop a s).

Definition in_bounds (text : str) (i : Z) : bool :=
  (0 <=? i) && (i <=? Z.of_nat (length text)).

(** A well-formed entity span for [text]: the label and the matched
    substring are there, every offset present lies within the text, and
    when both are present they are ordered and delimit the matched
    substring. *)
Definition well_formed (text : str) (e : Entity) : bool :=
  match ent_label e, ent_text e with
  | Some _, Some matched =>
      match ent_start e, ent_end e with
      | Some start, Some end_ =>
          in_bounds text start && in_bounds text end_ && (start <=? end_)
          && bool_decide (slice text start end_ = matched)
      | Some start, None => in_bounds text start
      | None, Some end_ => in_bounds text end_
      | None, None => true
      end
  | _, _ => false
  end.

(** The entity carries both offsets, with
    [0 <= start <= end <= len(text)]. *)
Definition valid_offsets (text : str) (e : Entity) : bool :=
  match ent_start e, ent_end e with
  | Some start, Some end_ =>
      (0 <=? start) && (start <=? end_) && (end_ <=? Z.of_nat (length text))
  | _, _ => false
  end.

(** Index [i] lies in the range [[start, end)] of [e]. *)
Definition in_span (e : Entity) (i : nat) : bool :=
  match ent_start e, ent_end e with
  | Some start, Some end_ => (start <=? Z.of_nat i) && (Z.of_nat i <? end_)
  | _, _ => false
  end.

(** Two ranges overlap when some index lies in both, that is when the
    greater start is below the lesser end. *)
Definition overlap (a b : Entity) : bool :=
  match ent_start a, ent_end a, ent_start b, ent_end b with
  | Some s1, Some e1, Some s2, Some e2 => Z.max s1 s2 <? Z.min e1 e2
  | _, _, _, _ => false
  end.

Fixpoint pairwise_non_overlapping (entities : list Entity) : bool :=
  match entities with
  | [] => true
  | e :: rest =>
      forallb (fun e' => negb (overlap e e')) rest
      && pairwise_non_overlapping rest
  end.

Definition covered (entities : list Entity) (i : nat) : bool :=
  existsb (fun e => in_span e i) entities.

(** The characters of [s], which starts at index [i] of the text, that lie
    outside every range of [entities], in their order. *)
Fixpoint untouched_from (entities : list Entity) (i : nat) (s : str) : str :=
  match s with
  | [] => []
  | c :: rest =>
      if covered entities i then untouched_from entities (S i) rest
      else c :: untouched_from entities (S i) rest
  end.

Definition untouched (text : str) (entities : list Entity) : str :=
  untouched_from entities 0 text.

(** The entity has the keys ['label'] and ['text']. *)
Definition has_label_and_text (e : Entity) : bool :=
  match ent_label e, ent_text e with
  | Some _, Some _ => true
  | _, _ => false
  end.

(** ** Sample inputs *)

(** A build without Faker needs no generator: [fake] is [None] throughout
    and the Faker-backed branches are never entered. *)
Definition no_faker : str -> unit -> str * unit := fun _ g => ([], g).

Definition mk_entity (label matched : string) (start end_ : option Z) : Entity :=
  {| ent_label := Some (py label); ent_text := Some (py matched);
     ent_start := start; ent_end := end_ |}.

Definition contact_text : str := py "Contact Jane Doe at jane@x.com".

Definition contact_name : Entity := mk_entity "name" "Jane Doe" (Some 8) (Some 16).

Definition contact_email : Entity :=
  mk_entity "email address" "jane@x.com" (Some 20) (Some 30).

(** Two empty spans at one offset. *)
Definition empty_name : Entity := mk_entity "name" "" (Some 1) (Some 1).
Definition empty_ssn : Entity := mk_entity "ssn" "" (Some 1) (Some 1).

(** ** Notions of the proofs *)

(** The order the sort establishes. *)
Definition start_desc (a b : Entity) : Prop := start_key b <= start_key a.

(** Both offsets are there and within [text]. *)
Definition bounded (text : str) (e : Entity) : Prop :=
  exists s t, ent_start e = Some s /\ ent_end e = Some t
              /\ 0 <= s /\ s <= t /\ t <= Z.of_nat (length text).

(** The loop invariant of the splicing, [done] being the entities already
    replaced and [modified_text] the current text: the current text still
    starts as [text] does up to the least start seen, and from any index
    that no replaced non-empty range has passed, the characters of [text]
    outside the ranges are found in order in the current text, from that
    index on. *)
Definition splice_inv (text : str) (done : list Entity) (modified_text : str)
  : Prop :=
  (forall q : nat,
      (q <= length text)%nat ->
      (forall e, e ∈ done -> Z.of_nat q <= start_key e) ->
      take q modified_text = take q text)
  /\ (forall p : nat,
        (p <= length text)%nat ->
        (forall e s t, e ∈ done -> ent_start e = Some s -> ent_end e = Some t ->
                       s < t -> Z.of_nat p <= s) ->
        untouched_from done p (drop p text) `sublist_of` drop p modified_text).

(** ** The redactor read from left to right *)

Section LeftToRight.

Context {U : UnicodeData}.

Variable Rng : Type.
Variable faker : str -> Rng -> str * Rng.

Local Notation "x <- m ;; k" := (bind m (fun x => k))
  (at level 100, m at next level, right associativity).

(** The part of the loop body that computes the replacement of one entity,
    from [get_replacement] to the end of the capitalization block. *)
Definition cased_replacement (entity : Entity) : M Rng str :=
  label <- getitem (ent_label entity) "label" ;;
  text <- getitem (ent_text entity) "text" ;;
  replacement <- get_replacement faker label text ;;
  preserve_capitalization text replacement.

(** The replacements of the entities of a list, computed in the order of
    the list, as the loop does. *)
Fixpoint cased_replacements (entities : list Entity) : M Rng (list str) :=
  match entities with
  | [] => ret []
  | entity :: rest =>
      r <- cased_replacement entity ;;
      rs <- cased_replacements rest ;;
      ret (r :: rs)
  end.

End LeftToRight.

Arguments cased_replacement {U Rng} faker entity.
Arguments cased_replacements {U Rng} faker entities.

Definition span_start (e : Entity) : nat := Z.to_nat (default 0 (ent_start e)).
Definition span_end (e : Entity) : nat := Z.to_nat (default 0 (ent_end e)).

(** [text] from index [pos] on, in which the range of every span of
    [spans], taken from left to right, gives way to the string paired with
    the span, and what lies between the ranges is copied. *)
Fixpoint weave (text : str) (pos : nat) (spans : list (Entity * str)) : str :=
  match spans with
  | [] => drop pos text
  | (e, r) :: rest =>
      take (span_start e - pos) (drop pos text) ++ r
        ++ weave text (span_end e) rest
  end.

(** Both offsets are there and [start < end]. *)
Definition nonempty_span (e : Entity) : bool :=
  match ent_start e, ent_end e with
  | Some start, Some end_ => start <? end_
  | _, _ => false
  end.

(** [b] ends where [a] starts, or before. *)
Definition before (a b : Entity) : Prop := (span_end b <= span_start a)%nat.

(** ** Documents and their text units *)

Section Stripping.

Context {U : UnicodeData}.

(** [s.lstrip()]: the leading white space goes. *)
Fixpoint str_lstrip (s : str) : str :=
  match s with
  | [] => []
  | c :: rest => if unicode_isspace c then str_lstrip rest else s
  end.

Definition str_rstrip (s : str) : str := rev (str_lstrip (rev s)).

(** [s.strip()] *)
Definition str_strip (s : str) : str := str_rstrip (str_lstrip s).

End Stripping.

(** A document as python-docx shows it to a reader: the text of every
    paragraph of [document.paragraphs] and, for every table of
    [document.tables], the text of every cell of [row.cells] of every row
    of [table.rows]. *)
Record Document := {
  paragraphs : list str;
  tables : list (list (list str))
}.

(** The dictionaries [extract_all_text] builds, told apart by ['type']. *)
Inductive Element : Type :=
  | paragraph_element (index : nat) (text : str)
  | table_cell_element (table row column : nat) (text : str).

Definition element_type (element : Element) : str :=
  match element with
  | paragraph_element _ _ => py "paragraph"
  | table_cell_element _ _ _ _ => py "table_cell"
  end.

Definition element_text (element : Element) : str :=
  match element with
  | paragraph_element _ text => text
  | table_cell_element _ _ _ text => text
  end.

Section Extraction.

Context {U : UnicodeData}.

(** The loop over [enumerate(document.paragraphs)], from index [i] on. *)
Fixpoint extract_paragraphs (i : nat) (paragraphs : list str) : list Element :=
  match paragraphs with
  | [] => []
  | text :: rest =>
      if truthy (str_strip text)
      then paragraph_element i text :: extract_paragraphs (S i) rest
      else extract_paragraphs (S i) rest
  end.

(** The three nested loops over tables, rows and cells. *)
Fixpoint extract_cells (table_idx row_idx col_idx : nat) (cells : list str)
  : list Element :=
  match cells with
  | [] => []
  | text :: rest =>
      if truthy (str_strip text)
      then table_cell_element table_idx row_idx col_idx text
             :: extract_cells table_idx row_idx (S col_idx) rest
      else extract_cells table_idx row_idx (S col_idx) rest
  end.

Fixpoint extract_rows (table_idx row_idx : nat) (rows : list (list str))
  : list Element :=
  match rows with
  | [] => []
  | row :: rest =>
      extract_cells table_idx row_idx 0 row
        ++ extract_rows table_idx (S row_idx) rest
  end.

Fixpoint extract_tables (table_idx : nat) (tables : list (list (list str)))
  : list Element :=
  match tables with
  | [] => []
  | table :: rest =>
      extract_rows table_idx 0 table ++ extract_tables (S table_idx) rest
  end.

Definition extract_all_text (document : Document) : list Element :=
  extract_paragraphs 0 (paragraphs document)
    ++ extract_tables 0 (tables document).

(** The text has a character that is not white space. *)
Definition visible (text : str) : bool :=
  existsb (fun c => negb (unicode_isspace c)) text.

End Extraction.

(** ** The output path of [cmd_replace] *)

(** [s.replace(old, new)] for a non-empty [old], scanning from the left:
    [skip] counts the characters of an occurrence just replaced that are
    still to be passed over. *)
Fixpoint replace_all_from (old new : str) (skip : nat) (s : str) : str :=
  match s with
  | [] => []
  | c :: rest =>
      match skip with
      | S k => replace_all_from old new k rest
      | O =>
          if startswith old s
          then new ++ replace_all_from old new (length old - 1) rest
          else c :: replace_all_from old new 0 rest
      end
  end.

(** [s.replace(old, new)]: an empty [old] matches before every character
    and at the end. *)
Definition str_replace (old new s : str) : str :=
  match old with
  | [] => new ++ flat_map (fun c => c :: new) s
  | _ :: _ => replace_all_from old new 0 s
  end.

(** [args.output or args.input.replace('.docx', '_anonymized.docx')]: a
    missing and an empty [--output] are both false. *)
Definition output_path (input : str) (output : option str) : str :=
  match output with
  | Some (c :: rest) => c :: rest
  | _ => str_replace (py ".docx") (py "_anonymized.docx") input
  end.

(** ** The commands *)

(** A dictionary from labels to lists of strings, in insertion order. *)
Definition Dict := list (str * list str).

(** [k in d] *)
Definition dict_in (k : str) (d : Dict) : bool :=
  existsb (fun kv => bool_decide (fst kv = k)) d.

(** [d.get(k)] *)
Fixpoint dict_get (k : str) (d : Dict) : option (list str) :=
  match d with
  | [] => None
  | (k', v) :: rest => if bool_decide (k' = k) then Some v else dict_get k rest
  end.

(** [d[k] = v]: a new key goes to the end. *)
Fixpoint dict_set (k : str) (v : list str) (d : Dict) : Dict :=
  match d with
  | [] => [(k, v)]
  | (k', v') :: rest =>
      if bool_decide (k' = k) then (k, v) :: rest
      else (k', v') :: dict_set k v rest
  end.

(** [d[k].append(x)], for a key that is there. *)
Fixpoint dict_append (k : str) (x : str) (d : Dict) : Dict :=
  match d with
  | [] => []
  | (k', v) :: rest =>
      if bool_decide (k' = k) then (k', v ++ [x]) :: rest
      else (k', v) :: dict_append k x rest
  end.

(** An entry of [results['pii_found']]; ['redacted'] is there in the
    redacted format only. *)
Record ElementResult := {
  result_element_type : str;
  result_text : str;
  result_entities : list Entity;
  redacted : option str
}.

(** The dictionary [results] of [cmd_detect], its ['summary'] flattened. *)
Record Results := {
  results_document : str;
  total_elements : nat;
  pii_found : list ElementResult;
  total_pii_instances : nat;
  pii_by_type : Dict
}.

Section Commands.

Context {U : UnicodeData}.

Variable Rng : Type.
Variable faker : str -> Rng -> str * Rng.

(** [model.predict_entities(text, pii_types, threshold=args.threshold)], for
    the model and the threshold of the run. *)
Variable predict_entities : str -> list str -> list Entity.

Local Notation "x <- m ;; k" := (bind m (fun x => k))
  (at level 100, m at next level, right associativity).

(** The body of [for entity in entities] in [cmd_detect], on the two
    entries of the summary. *)
Definition count_entity (entity : Entity) (summary : nat * Dict)
  : M Rng (nat * Dict) :=
  pii_type <- getitem (ent_label entity) "label" ;;
  let total := S (fst summary) in
  let by_type :=
    if dict_in pii_type (snd summary) then snd summary
    else dict_set pii_type [] (snd summary) in
  text <- getitem (ent_text entity) "text" ;;
  ret (total, dict_append pii_type text by_type).

Fixpoint count_entities (entities : list Entity) (summary : nat * Dict)
  : M Rng (nat * Dict) :=
  match entities with
  | [] => ret summary
  | entity :: rest =>
      summary' <- count_entity entity summary ;;
      count_entities rest summary'
  end.

(** The body of [for element in content] in [cmd_detect]. *)
Definition detect_element (pii_types : list str) (format : str)
    (element : Element) (results : Results) : M Rng Results :=
  let entities := predict_entities (element_text element) pii_types in
  match entities with
  | [] => ret results
  | _ :: _ =>
      redacted <-
        (if bool_decide (format = py "redacted")
         then r <- replace_pii_in_text faker (element_text element) entities ;;
              ret (Some r)
         else ret None) ;;
      let element_result :=
        {| result_element_type := element_type element;
           result_text := element_text element;
           result_entities := entities;
           redacted := redacted |} in
      summary <- count_entities entities
                   (total_pii_instances results, pii_by_type results) ;;
      ret {| results_document := results_document results;
             total_elements := total_elements results;
             pii_found := pii_found results ++ [element_result];
             total_pii_instances := fst summary;
             pii_by_type := snd summary |}
  end.

Fixpoint detect_loop (pii_types : list str) (format : str)
    (content : list Element) (results : Results) : M Rng Results :=
  match content with
  | [] => ret results
  | element :: rest =>
      results' <- detect_element pii_types format element results ;;
      detect_loop pii_types format rest results'
  end.

(** [cmd_detect] from the extraction of the text to the end of the loop
    that fills [results]. *)
Definition detect_results (input : str) (pii_types : list str) (format : str)
    (document : Document) : M Rng Results :=
  let content := extract_all_text document in
  detect_loop pii_types format content
    {| results_document := input;
       total_elements := length content;
       pii_found := [];
       total_pii_instances := 0;
       pii_by_type := [] |}.

(** The body of the loop over the paragraphs in [cmd_replace], for a
    paragraph of text [text]: the text assigned to the paragraph, if one
    is, and what is added to [replacements_made]. *)
Definition replace_paragraph (pii_types : list str) (text : str)
  : M Rng (option str * nat) :=
  if truthy (str_strip text) then
    let entities := predict_entities text pii_types in
    match entities with
    | [] => ret (None, 0%nat)
    | _ :: _ =>
        new_text <- replace_pii_in_text faker text entities ;;
        if bool_decide (new_text <> text)
        then ret (Some new_text, length entities)
        else ret (None, 0%nat)
    end
  else ret (None, 0%nat).

(** The loop over [document.paragraphs] in [cmd_replace]: the texts of the
    paragraphs after the loop, and [replacements_made]. *)
Fixpoint replace_paragraphs (pii_types : list str) (paragraphs : list str)
    (replacements_made : nat) : M Rng (list str * nat) :=
  match paragraphs with
  | [] => ret ([], replacements_made)
  | text :: rest =>
      step <- replace_paragraph pii_types text ;;
      done <- replace_paragraphs pii_types rest
                (replacements_made + snd step) ;;
      ret (default text (fst step) :: fst done, snd done)
  end.

End Commands.

Arguments count_entity {Rng} entity summary.
Arguments count_entities {Rng} entities summary.
Arguments detect_element {U Rng} faker predict_entities pii_types format
  element results.
Arguments detect_loop {U Rng} faker predict_entities pii_types format
  content results.
Arguments detect_results {U Rng} faker predict_entities input pii_types format
  document.
Arguments replace_paragraph {U Rng} faker predict_entities pii_types text.
Arguments replace_paragraphs {U Rng} faker predict_entities pii_types
  paragraphs replacements_made.

(** The texts of the entities of [entities] that carry the label [label],
    in their order. *)
Definition texts_labelled (label : str) (entities : list Entity) : list str :=
  map (fun e => default [] (ent_text e))
    (List.filter (fun e => bool_decide (ent_label e = Some label)) entities).

(** The elements the detector finds something in, with what it finds. *)
Definition detections (predict_entities : str -> list str -> list Entity)
    (pii_types : list str) (content : list Element)
  : list (Element * list Entity) :=
  List.filter (fun p => negb (bool_decide (snd p = [])))
    (map (fun el => (el, predict_entities (element_text el) pii_types))
         content).

(** A pure detector that finds the name and the address of
    [contact_text], and nothing in any other text. *)
Definition contact_detector (text : str) (pii_types : list str) : list Entity :=
  if bool_decide (text = contact_text)
  then [contact_name; contact_email] else [].

(** All the entities the detector finds in the elements, in order. *)
Definition detected_entities (predict_entities : str -> list str -> list Entity)
    (pii_types : list str) (content : list Element) : list Entity :=
  flat_map (fun el => predict_entities (element_text el) pii_types) content.

(** What [pii_by_type] is to hold for a label once the entities of
    [entities] are counted: no entry for a label none of them carries. *)
Definition grouped (label : str) (entities : list Entity) : option (list str) :=
  match texts_labelled label entities with
  | [] => None
  | texts => Some texts
  end.

(** The number of strings a dictionary holds. *)
Definition dict_size (d : Dict) : nat :=
  foldr (fun kv n => (length (snd kv) + n)%nat) 0%nat d.

(** The invariant of the summary, [seen] being the entities counted. *)
Definition summary_inv (seen : list Entity) (summary : nat * Dict) : Prop :=
  fst summary = length seen
  /\ NoDup (map fst (snd summary))
  /\ (forall label, dict_get label (snd summary) = grouped label seen)
  /\ dict_size (snd summary) = length seen.

(** What an entry of [pii_found] tells of its element. *)
Definition result_triple (r : ElementResult) : str * str * list Entity :=
  (result_element_type r, result_text r, result_entities r).

(** The invariant of the loop of [cmd_detect], [seen] being the elements
    gone through: the summary counts the entities found in them, and
    [pii_found] lists, in order, the elements something was found in, each
    with a redacted text in the redacted format and in no other. *)
Definition detect_inv {U : UnicodeData} {Rng} (faker : str -> Rng -> str * Rng)
    (predict_entities : str -> list str -> list Entity)
    (pii_types : list str) (format : str)
    (seen : list Element) (results : Results) : Prop :=
  summary_inv (detected_entities predict_entities pii_types seen)
    (total_pii_instances results, pii_by_type results)
  /\ map result_triple (pii_found results)
     = map (fun p => (element_type (fst p), element_text (fst p), snd p))
         (detections predict_entities pii_types seen)
  /\ Forall (fun r =>
               (is_Some (redacted r) <-> format = py "redacted")
               /\ forall out, redacted r = Some out ->
                    exists f1 f2 : Fake Rng,
                      replace_pii_in_text faker (result_text r)
                        (result_entities r) f1 = Ok (out, f2))
       (pii_found results).

(** A document of two paragraphs, the second blank, and no table. *)
Definition contact_document : Document :=
  {| paragraphs := [contact_text; py "  "]; tables := [] |}.

(** A decidable, closed proposition is settled by evaluation. *)
Ltac decide_by_computation :=
  apply (bool_decide_unpack _); vm_compute; exact I.

(** * Facts *)

Section Facts.

Context {U : UnicodeData}.

(** ** Strings *)

Lemma isupper_from_spec (s : str) (cased : bool) :
  isupper_from cased s = true <->
  (cased = true \/ exists c, c ∈ s /\ unicode_isupper c = true)
  /\ (forall c, c ∈ s ->
        unicode_islower c = false /\ unicode_istitle c = false).
Proof.
  revert cased. induction s as [|a s IH]; intros cased; simpl.
  - split.
    + intros ->. split; [now left|]. intros c Hc. inversion Hc.
    + intros [[H|(c & Hc & _)] _]; [exact H | inversion Hc].
  - destruct (unicode_islower a || unicode_istitle a) eqn:Hlow.
    + split; [discriminate|]. intros [_ H].
      destruct (H a) as [H1 H2]; [constructor|].
      rewrite H1, H2 in Hlow. discriminate.
    + apply orb_false_iff in Hlow. rewrite IH. split.
      * intros [Hc Hl]. split.
        -- destruct Hc as [Hc|(c & Hin & Hup)].
           ++ apply orb_true_iff in Hc as [Hc|Hc]; [now left|].
              right. exists a. split; [constructor | exact Hc].
           ++ right. exists c. split; [now constructor | exact Hup].
        -- intros c Hin. apply elem_of_cons in Hin as [->|Hin]; auto.
      * intros [Hc Hl]. split.
        -- destruct Hc as [->|(c & Hin & Hup)]; [now left|].
           apply elem_of_cons in Hin as [->|Hin].
           ++ left. rewrite Hup. apply orb_true_r.
           ++ right. now exists c.
        -- intros c Hin. apply Hl. now constructor.
Qed.

Lemma str_isupper_spec (s : str) : str_isupper s = true <-> entirely_upper s.
Proof.
  assert (Hloop : isupper_from false s = true <->
            (exists c, c ∈ s /\ unicode_isupper c = true)
            /\ (forall c, c ∈ s ->
                  unicode_islower c = false /\ unicode_istitle c = false)).
  { rewrite isupper_from_spec.
    split; intros [H Hl]; (split; [|exact Hl]).
    - destruct H as [H|H]; [discriminate | exact H].
    - now right. }
  destruct s as [|c [|c' s]]; [exact Hloop | reflexivity | exact Hloop].
Qed.

Lemma str_upper_app (a b : str) :
  str_upper (a ++ b) = str_upper a ++ str_upper b.
Proof. apply flat_map_app. Qed.

(** On ASCII text [s.upper()] is character by character. *)
Lemma str_upper_ascii (s : str) :
  is_ascii s -> str_upper s = map ascii_toupper s.
Proof.
  induction 1 as [|c s Hc _ IH]; [reflexivity|].
  unfold str_upper in *. simpl. rewrite IH.
  now rewrite (unicode_toupper_ascii c Hc).
Qed.

Lemma ascii_toupper_range (c : char) :
  (c < 128)%N -> (ascii_toupper c < 128)%N.
Proof.
  intros Hc. unfold ascii_toupper. destruct (ascii_islower c); lia.
Qed.

Lemma ascii_toupper_idemp (c : char) :
  ascii_toupper (ascii_toupper c) = ascii_toupper c.
Proof.
  unfold ascii_toupper. destruct (ascii_islower c) eqn:Hlow; [|now rewrite Hlow].
  unfold ascii_islower in *. apply andb_true_iff in Hlow as [H1 H2].
  apply N.leb_le in H1, H2.
  replace ((97 <=? c - 32)%N) with false; [reflexivity|].
  symmetry. apply N.leb_gt. lia.
Qed.

Lemma startswith_spec (p s : str) :
  startswith p s = true <-> exists post, s = p ++ post.
Proof.
  revert s. induction p as [|a p IH]; intros s; simpl.
  - split; [intros _; now exists s | reflexivity].
  - destruct s as [|b s].
    + split; [discriminate | intros [post H]; discriminate].
    + rewrite andb_true_iff, N.eqb_eq, IH. split.
      * intros [-> [post ->]]. now exists post.
      * intros [post H]. injection H as -> ->. split; [reflexivity | now exists post].
Qed.

Lemma occurs_at_0 (needle s : str) :
  occurs_at needle s 0 <-> startswith needle s = true.
Proof.
  rewrite startswith_spec. unfold occurs_at. split.
  - intros (pre & post & -> & Hlen). destruct pre; [|discriminate].
    now exists post.
  - intros [post ->]. now exists [], post.
Qed.

Lemma occurs_at_S (needle : str) (c : char) (s : str) (i : nat) :
  occurs_at needle (c :: s) (S i) <-> occurs_at needle s i.
Proof.
  unfold occurs_at. split.
  - intros (pre & post & Heq & Hlen). destruct pre as [|a pre]; [discriminate|].
    injection Heq as -> ->. injection Hlen as Hlen. now exists pre, post.
  - intros (pre & post & -> & Hlen). exists (c :: pre), post.
    simpl. now rewrite Hlen.
Qed.

(** [replace_first] rewrites the left-most occurrence, and only that one. *)
Lemma replace_first_leftmost (old new pre post : str) :
  (forall i, (i < length pre)%nat -> ~ occurs_at old (pre ++ old ++ post) i) ->
  replace_first old new (pre ++ old ++ post) = pre ++ new ++ post.
Proof.
  induction pre as [|c pre IH]; intros Hfirst.
  - simpl.
    assert (Hs : startswith old (old ++ post) = true)
      by (apply startswith_spec; now exists post).
    destruct (old ++ post) as [|a s] eqn:E; simpl; rewrite Hs.
    + rewrite <- E, drop_app_length. reflexivity.
    + rewrite <- E, drop_app_length. reflexivity.
  - simpl.
    destruct (startswith old (c :: pre ++ old ++ post)) eqn:Hs.
    + exfalso. apply (Hfirst 0%nat); [simpl; lia|].
      now apply occurs_at_0.
    + f_equal. apply IH. intros i Hi Hocc.
      apply (Hfirst (S i)); [simpl; lia|]. now apply occurs_at_S.
Qed.

Lemma replace_first_absent (old new s : str) :
  (forall i, ~ occurs_at old s i) -> replace_first old new s = s.
Proof.
  induction s as [|c s IH]; intros Hno; simpl.
  - destruct (startswith old []) eqn:Hs; [|reflexivity].
    exfalso. apply (Hno 0%nat). now apply occurs_at_0.
  - destruct (startswith old (c :: s)) eqn:Hs.
    + exfalso. apply (Hno 0%nat). now apply occurs_at_0.
    + f_equal. apply IH. intros i Hocc. apply (Hno (S i)).
      now apply occurs_at_S.
Qed.

Lemma slice_to_nonneg (s : str) (i : Z) :
  0 <= i -> slice_to s i = take (Z.to_nat i) s.
Proof.
  intros Hi. unfold slice_to, slice_index.
  destruct (Z.ltb_spec i 0); [lia | reflexivity].
Qed.

Lemma slice_from_nonneg (s : str) (i : Z) :
  0 <= i -> slice_from s i = drop (Z.to_nat i) s.
Proof.
  intros Hi. unfold slice_from, slice_index.
  destruct (Z.ltb_spec i 0); [lia | reflexivity].
Qed.

(** ** Taxonomy and selector *)

(** C9. Every category of the three predefined groups [PII_GROUP],
    [PHI_GROUP] and [PCI_GROUP] is a member of the master list
    [ALL_PII_TYPES]. *)
Theorem groups_within_ALL_PII_TYPES (category : str) :
  category ∈ PII_GROUP \/ category ∈ PHI_GROUP \/ category ∈ PCI_GROUP ->
  category ∈ ALL_PII_TYPES.
Proof.
  assert (H : Forall (fun c => c ∈ ALL_PII_TYPES)
                (PII_GROUP ++ PHI_GROUP ++ PCI_GROUP)).
  { decide_by_computation. }
  rewrite Forall_forall in H. intros Hin. apply H.
  rewrite !elem_of_app. exact Hin.
Qed.

(** C5, as the script behaves.  An explicit, non-empty [--pii-types] list is
    returned with the underscores of each token turned into spaces and
    nothing else done to it: no token is checked against [ALL_PII_TYPES],
    so every requested token reaches the detector in its normalized form,
    a category or not. *)
Theorem get_pii_types_passes_tokens_through (args : Args) (tokens : list str) :
  pii_types args = Some tokens ->
  tokens <> [] ->
  get_pii_types args = map (replace_char "_" " ") tokens
  /\ (forall token, token ∈ tokens ->
        replace_char "_" " " token ∈ get_pii_types args).
Proof.
  intros Hsel Hne. unfold get_pii_types. rewrite Hsel.
  destruct tokens as [|t ts]; [contradiction|].
  split; [reflexivity|].
  intros token Hin. unfold normalize_pii_types.
  apply list_elem_of_In, in_map, list_elem_of_In. exact Hin.
Qed.

Lemma py_inj (a b : string) : py a = py b -> a = b.
Proof.
  unfold py. intros H.
  assert (Hinj : forall l k : list ascii, map chr l = map chr k -> l = k).
  { induction l as [|x l IH]; intros [|y k] Hlk; try discriminate;
      [reflexivity|].
    injection Hlk as Hxy Hlk. f_equal; [|now apply IH].
    unfold chr in Hxy. apply (f_equal ascii_of_N) in Hxy.
    now rewrite !ascii_N_embedding in Hxy. }
  apply Hinj in H. apply (f_equal string_of_list_ascii) in H.
  now rewrite !string_of_list_ascii_of_string in H.
Qed.

Lemma py_is_ascii_check (s : string) :
  forallb (fun c => (c <? 128)%N) (py s) = true -> is_ascii (py s).
Proof.
  intros H. apply Forall_forall. intros c Hc.
  rewrite forallb_forall in H. apply N.ltb_lt, H, list_elem_of_In, Hc.
Qed.

(** On an ASCII category the upper snake case is read off character by
    character. *)
Lemma upper_snake_case_ascii (category : str) :
  is_ascii category ->
  upper_snake_case category
  = map (fun c => if N.eqb c (chr " ") then chr "_" else ascii_toupper c) category.
Proof.
  intros Ha. unfold upper_snake_case. rewrite (str_upper_ascii _ Ha).
  unfold replace_char. rewrite map_map. apply map_ext. intros c.
  change (chr " ") with 32%N.
  destruct (N.eqb_spec c 32) as [->|Hc]; [reflexivity|].
  destruct (N.eqb_spec (ascii_toupper c) 32) as [Hu|_]; [|reflexivity].
  exfalso. unfold ascii_toupper, ascii_islower in Hu.
  destruct ((97 <=? c)%N && (c <=? 122)%N) eqn:Hlow; [|contradiction].
  apply andb_true_iff in Hlow as [H1 H2]. apply N.leb_le in H1, H2. lia.
Qed.

(** ** Replacement synthesizer *)

Section SynthesizerFacts.

Variable Rng : Type.
Variable faker : str -> Rng -> str * Rng.

Lemma PII_TO_FAKER_lookup_Some (pii_type : str) lam :
  PII_TO_FAKER faker !! pii_type = Some lam ->
  exists key fallback,
    (key, fallback) ∈ PII_TO_FAKER_fallbacks
    /\ pii_type = py key
    /\ lam = generator faker key fallback.
Proof.
  intros Hlook. apply elem_of_list_to_map_2 in Hlook.
  apply list_elem_of_In, in_map_iff in Hlook as ([key fallback] & Heq & Hin).
  simpl in Heq. injection Heq as <- <-.
  exists key, fallback. split; [now apply list_elem_of_In|]. now split.
Qed.

Lemma PII_TO_FAKER_lookup_None (pii_type : str) :
  pii_type ∉ registered_categories ->
  PII_TO_FAKER faker !! pii_type = None.
Proof.
  intros Hnot. apply not_elem_of_list_to_map_1.
  intros Hin. apply Hnot. unfold registered_categories.
  apply list_elem_of_In. apply list_elem_of_In, in_map_iff in Hin as (kv & <- & Hin).
  apply in_map_iff in Hin as (kv' & <- & Hin).
  apply in_map_iff. exists kv'. split; [reflexivity | exact Hin].
Qed.

Lemma PII_TO_FAKER_lookup_registered (pii_type : str) :
  pii_type ∈ registered_categories ->
  exists lam, PII_TO_FAKER faker !! pii_type = Some lam.
Proof.
  intros Hin. destruct (PII_TO_FAKER faker !! pii_type) eqn:E; [eauto|].
  exfalso. apply not_elem_of_list_to_map_2 in E. apply E.
  unfold registered_categories in Hin.
  apply list_elem_of_In, in_map_iff in Hin as (kv & <- & Hin).
  apply list_elem_of_In, in_map_iff.
  exists (py (fst kv), generator faker (fst kv) (snd kv)).
  split; [reflexivity|]. apply in_map_iff. now exists kv.
Qed.

(** C6. For a category with no registered generator, [get_replacement]
    returns the category in upper snake case, that is up-cased by
    [str.upper] and with every space turned into an underscore, between
    square brackets, whatever the matched text and the state of [fake],
    which it leaves untouched; the placeholder is never empty.  For an
    ASCII category it is read off character by character, and for
    ["unregistered category xyz"] it is ["[UNREGISTERED_CATEGORY_XYZ]"],
    whatever the database says above the ASCII range. *)
Theorem get_replacement_unregistered
    (pii_type original_text : str) (fake : Fake Rng) :
  pii_type ∉ registered_categories ->
  get_replacement faker pii_type original_text fake
    = Ok (py "[" ++ upper_snake_case pii_type ++ py "]", fake)
  /\ py "[" ++ upper_snake_case pii_type ++ py "]" <> []
  /\ (is_ascii pii_type ->
      upper_snake_case pii_type
      = map (fun c => if N.eqb c (chr " ") then chr "_" else ascii_toupper c)
          pii_type)
  /\ get_replacement faker (py "unregistered category xyz") original_text fake
     = Ok (py "[UNREGISTERED_CATEGORY_XYZ]", fake).
Proof.
  intros Hnot. split; [|split; [|split]].
  - unfold get_replacement, upper_snake_case.
    now rewrite (PII_TO_FAKER_lookup_None _ Hnot).
  - discriminate.
  - apply upper_snake_case_ascii.
  - unfold get_replacement.
    rewrite PII_TO_FAKER_lookup_None by decide_by_computation.
    fold (upper_snake_case (py "unregistered category xyz")).
    rewrite upper_snake_case_ascii by (now apply py_is_ascii_check).
    reflexivity.
Qed.

Lemma get_replacement_returns (pii_type original_text : str) (fake : Fake Rng) :
  exists replacement fake',
    get_replacement faker pii_type original_text fake
    = Ok (replacement, fake').
Proof.
  unfold get_replacement, call, ret.
  destruct (PII_TO_FAKER faker !! pii_type) as [lam|]; [|eauto].
  destruct (lam fake) as [r fake']. eauto.
Qed.

End SynthesizerFacts.

Lemma PII_TO_FAKER_fallbacks_functional (key : string) (v1 v2 : string) :
  (key, v1) ∈ PII_TO_FAKER_fallbacks ->
  (key, v2) ∈ PII_TO_FAKER_fallbacks ->
  v1 = v2.
Proof.
  assert (Hnd : NoDup (map fst PII_TO_FAKER_fallbacks))
    by decide_by_computation.
  intros H1 H2.
  assert (Hmap : forall v, (key, v) ∈ PII_TO_FAKER_fallbacks ->
            (list_to_map PII_TO_FAKER_fallbacks : gmap string string) !! key
            = Some v).
  { intros v Hv. now apply elem_of_list_to_map_1. }
  apply Hmap in H1, H2. congruence.
Qed.

(** C10. With [fake] at [None], [get_replacement] is a function of the
    category alone: one string [v] is returned for the category whatever the
    matched text and whatever a Faker would have produced, and [fake] stays
    [None], so that a second call answers [v] again.  For a registered
    category [v] is the fallback constant of its lambda, and for any other
    it is the bracketed placeholder. *)
Theorem get_replacement_offline_deterministic (pii_type : str) :
  exists v : str,
    (forall Rng (faker : str -> Rng -> str * Rng) original_text,
        get_replacement faker pii_type original_text None = Ok (v, None))
    /\ (forall key fallback,
          (key, fallback) ∈ PII_TO_FAKER_fallbacks ->
          pii_type = py key -> v = py fallback)
    /\ (pii_type ∉ registered_categories ->
        v = py "[" ++ upper_snake_case pii_type ++ py "]").
Proof.
  destruct (decide (pii_type ∈ registered_categories)) as [Hin|Hnot].
  - pose proof Hin as Hreg. unfold registered_categories in Hreg.
    apply list_elem_of_In, in_map_iff in Hreg as ([key fallback] & Hkey & Hkv).
    simpl in Hkey. apply list_elem_of_In in Hkv.
    exists (py fallback). split; [|split].
    + intros Rng faker original_text. unfold get_replacement.
      destruct (PII_TO_FAKER_lookup_registered _ faker _ Hin) as [lam Hlam].
      rewrite Hlam.
      apply PII_TO_FAKER_lookup_Some in Hlam as (key' & fb' & Hkv' & Hk' & ->).
      unfold call, generator. do 3 f_equal.
      assert (key' = key) by (apply py_inj; congruence).
      subst key'. apply (PII_TO_FAKER_fallbacks_functional key); assumption.
    + intros key' fb' Hkv' Hk'. f_equal.
      assert (key' = key) by (apply py_inj; congruence).
      subst key'. apply (PII_TO_FAKER_fallbacks_functional key); assumption.
    + intros Hnot. contradiction.
  - exists (py "[" ++ upper_snake_case pii_type ++ py "]"). split; [|split].
    + intros Rng faker original_text.
      unfold get_replacement, upper_snake_case.
      now rewrite (PII_TO_FAKER_lookup_None _ _ _ Hnot).
    + intros key fallback Hkv Hk. exfalso. apply Hnot.
      unfold registered_categories. subst pii_type.
      apply list_elem_of_In, in_map_iff. exists (key, fallback).
      split; [reflexivity | now apply list_elem_of_In].
    + reflexivity.
Qed.

(** ** Span redactor: one entity *)

Section RedactorFacts.

Variable Rng : Type.
Variable faker : str -> Rng -> str * Rng.

Lemma str_isupper_single (c : char) : str_isupper [c] = unicode_isupper c.
Proof. reflexivity. Qed.

(** The guards of the capitalization block keep its subscripts in range:
    it raises nothing and leaves [fake] alone. *)
Lemma getchar_head (c : char) (s : str) :
  getchar (Rng := Rng) (c :: s) 0 = ret [c].
Proof. reflexivity. Qed.

Lemma bind_ret {A B : Type} (a : A) (k : A -> M Rng B) :
  bind (ret a) k = k a.
Proof. reflexivity. Qed.

Lemma preserve_capitalization_returns (matched replacement : str) :
  exists cased, forall fake : Fake Rng,
    preserve_capitalization matched replacement fake = Ok (cased, fake).
Proof.
  unfold preserve_capitalization.
  destruct (str_isupper matched); [eauto|].
  destruct matched as [|c m]; [eauto|].
  unfold truthy. rewrite getchar_head, bind_ret, str_isupper_single.
  destruct (unicode_isupper c); [|eauto].
  destruct (Nat.ltb_spec 1 (length replacement)) as [Hlen|Hlen]; [|eauto].
  destruct replacement as [|r rest]; [simpl in Hlen; lia|].
  rewrite getchar_head, bind_ret. eauto.
Qed.

Lemma redact_entity_eq (entity : Entity)
    (label matched modified_text replacement cased : str)
    (fake fake' : Fake Rng) :
  ent_label entity = Some label ->
  ent_text entity = Some matched ->
  get_replacement faker label matched fake = Ok (replacement, fake') ->
  preserve_capitalization matched replacement fake' = Ok (cased, fake') ->
  redact_entity faker entity modified_text fake =
    Ok (match ent_start entity, ent_end entity with
        | Some start, Some end_ =>
            slice_to modified_text start ++ cased
              ++ slice_from modified_text end_
        | _, _ => replace_first matched cased modified_text
        end, fake').
Proof.
  intros Hl Ht Hr Hc. unfold redact_entity, bind, getitem, ret.
  rewrite Hl, Ht, Hr, Hc.
  destruct (ent_start entity), (ent_end entity); reflexivity.
Qed.

Lemma replace_pii_in_text_single (text : str) (entity : Entity)
    (fake : Fake Rng) :
  replace_pii_in_text faker text [entity] fake
  = redact_entity faker entity text fake.
Proof.
  unfold replace_pii_in_text. simpl. unfold bind.
  destruct (redact_entity faker entity text fake) as [[out fake']|e];
    reflexivity.
Qed.

(** C7. On the empty list of entities [replace_pii_in_text] returns the
    text as it is. *)
Theorem replace_pii_in_text_no_entities (text : str) (fake : Fake Rng) :
  replace_pii_in_text faker text [] fake = Ok (text, fake).
Proof. reflexivity. Qed.

Lemma preserve_capitalization_spec (matched replacement : str) :
  exists cased,
    (forall fake : Fake Rng,
        preserve_capitalization matched replacement fake = Ok (cased, fake))
    /\ (entirely_upper matched -> cased = str_upper replacement)
    /\ (~ entirely_upper matched -> first_char_upper matched ->
          (forall r rest, replacement = r :: rest -> rest <> [] ->
                          cased = unicode_toupper r ++ rest)
          /\ ((length replacement <= 1)%nat -> cased = str_upper replacement))
    /\ (~ entirely_upper matched -> ~ first_char_upper matched ->
          cased = replacement)
    /\ (matched = [] -> cased = replacement).
Proof.
  unfold preserve_capitalization.
  destruct (str_isupper matched) eqn:Hup.
  - pose proof Hup as Hent. apply str_isupper_spec in Hent.
    exists (str_upper replacement).
    split; [reflexivity|]. split; [reflexivity|].
    split; [intros Hn; contradiction|].
    split; [intros Hn; contradiction|].
    intros ->. discriminate Hup.
  - assert (Hnot : ~ entirely_upper matched).
    { intros H. apply str_isupper_spec in H. congruence. }
    destruct matched as [|c m].
    + exists replacement.
      split; [reflexivity|]. split; [intros H; contradiction|].
      split; [intros _ (c & rest & H & _); discriminate|].
      split; reflexivity.
    + unfold truthy. rewrite getchar_head, bind_ret, str_isupper_single.
      destruct (unicode_isupper c) eqn:Hc.
      * assert (Hfirst : first_char_upper (c :: m)) by now exists c, m.
        destruct (Nat.ltb_spec 1 (length replacement)) as [Hlen|Hlen].
        -- destruct replacement as [|r rest]; [simpl in Hlen; lia|].
           exists (unicode_toupper r ++ rest).
           split.
           { intros fake. rewrite getchar_head, bind_ret.
             unfold str_upper. simpl. now rewrite app_nil_r. }
           split; [intros H; contradiction|].
           split; [|split; [intros _ Hn; contradiction | discriminate]].
           intros _ _. split.
           ++ intros r' rest' Heq _. now injection Heq as <- <-.
           ++ simpl in *. lia.
        -- exists (str_upper replacement).
           split; [reflexivity|]. split; [reflexivity|].
           split; [|split; [intros _ Hn; contradiction | discriminate]].
           intros _ _. split; [|reflexivity].
           intros r rest -> Hrest. destruct rest; [contradiction|].
           simpl in Hlen. lia.
      * exists replacement.
        split; [reflexivity|]. split; [intros H; contradiction|].
        split.
        -- intros _ (c' & rest & Heq & Hc'). injection Heq as <- <-. congruence.
        -- split; [reflexivity | discriminate].
Qed.

(** C2. What [replace_pii_in_text] splices in for an entity is the
    synthesized replacement, cased after the matched substring: an entirely
    upper-case match up-cases the whole replacement; otherwise a match
    whose first character is upper-case up-cases the first character of
    the replacement only, a replacement of at most one character being
    up-cased as a whole; otherwise the replacement is left as it is, and so
    it is for an empty match. *)
Theorem redact_entity_capitalization (entity : Entity)
    (label matched modified_text replacement : str) (fake fake' : Fake Rng) :
  ent_label entity = Some label ->
  ent_text entity = Some matched ->
  get_replacement faker label matched fake = Ok (replacement, fake') ->
  exists cased,
    redact_entity faker entity modified_text fake
    = Ok (match ent_start entity, ent_end entity with
          | Some start, Some end_ =>
              slice_to modified_text start ++ cased
                ++ slice_from modified_text end_
          | _, _ => replace_first matched cased modified_text
          end, fake')
    /\ replace_pii_in_text faker modified_text [entity] fake
       = redact_entity faker entity modified_text fake
    /\ (entirely_upper matched -> cased = str_upper replacement)
    /\ (~ entirely_upper matched -> first_char_upper matched ->
          (forall r rest, replacement = r :: rest -> rest <> [] ->
                          cased = unicode_toupper r ++ rest)
          /\ ((length replacement <= 1)%nat -> cased = str_upper replacement))
    /\ (~ entirely_upper matched -> ~ first_char_upper matched ->
          cased = replacement)
    /\ (matched = [] -> cased = replacement).
Proof.
  intros Hl Ht Hr.
  destruct (preserve_capitalization_spec matched replacement)
    as (cased & Hc & Hrules).
  exists cased. split; [|split; [|exact Hrules]].
  - exact (redact_entity_eq entity label matched modified_text replacement
             cased fake fake' Hl Ht Hr (Hc fake')).
  - apply replace_pii_in_text_single.
Qed.

(** C4. An entity with both offsets is spliced in by slicing:
    [modified_text[:start] + replacement + modified_text[end:]], the
    replacement being the cased one.  An entity that lacks an offset is
    replaced textually: the left-most occurrence of its matched substring
    in the current text gives way to the replacement, nothing else
    changes, and a text without occurrence is left as it is. *)
Theorem redact_entity_splice (entity : Entity)
    (label matched modified_text replacement cased : str)
    (fake fake' : Fake Rng) :
  ent_label entity = Some label ->
  ent_text entity = Some matched ->
  get_replacement faker label matched fake = Ok (replacement, fake') ->
  preserve_capitalization matched replacement fake' = Ok (cased, fake') ->
  (forall start end_,
      ent_start entity = Some start -> ent_end entity = Some end_ ->
      redact_entity faker entity modified_text fake
      = Ok (slice_to modified_text start ++ cased
              ++ slice_from modified_text end_, fake')
      /\ (0 <= start -> 0 <= end_ ->
          redact_entity faker entity modified_text fake
          = Ok (take (Z.to_nat start) modified_text ++ cased
                  ++ drop (Z.to_nat end_) modified_text, fake')))
  /\ (ent_start entity = None \/ ent_end entity = None ->
      redact_entity faker entity modified_text fake
      = Ok (replace_first matched cased modified_text, fake')
      /\ (forall pre post,
            modified_text = pre ++ matched ++ post ->
            (forall i, (i < length pre)%nat ->
                       ~ occurs_at matched modified_text i) ->
            redact_entity faker entity modified_text fake
            = Ok (pre ++ cased ++ post, fake'))
      /\ ((forall i, ~ occurs_at matched modified_text i) ->
          redact_entity faker entity modified_text fake
          = Ok (modified_text, fake')))
  /\ replace_pii_in_text faker modified_text [entity] fake
     = redact_entity faker entity modified_text fake.
Proof.
  intros Hl Ht Hr Hc.
  pose proof (redact_entity_eq entity label matched modified_text
                replacement cased fake fake' Hl Ht Hr Hc) as Heq.
  split; [|split].
  - intros start end_ Hs He. rewrite Hs, He in Heq.
    split; [exact Heq|]. intros H0 H1.
    rewrite Heq, slice_to_nonneg, slice_from_nonneg by assumption.
    reflexivity.
  - intros Hmiss.
    assert (Hrep : redact_entity faker entity modified_text fake
                   = Ok (replace_first matched cased modified_text, fake')).
    { rewrite Heq. destruct Hmiss as [-> | ->]; [reflexivity|].
      destruct (ent_start entity); reflexivity. }
    split; [exact Hrep|]. split.
    + intros pre post Hdec Hfirst. rewrite Hrep. subst modified_text.
      now rewrite replace_first_leftmost.
    + intros Hno. rewrite Hrep. now rewrite replace_first_absent.
  - apply replace_pii_in_text_single.
Qed.

End RedactorFacts.

(** ** The sort by descending start *)

Lemma insert_desc_perm (x : Entity) (l : list Entity) :
  insert_desc x l ≡ₚ x :: l.
Proof.
  induction l as [|y l IH]; simpl; [reflexivity|].
  destruct (start_key y <=? start_key x); [reflexivity|].
  rewrite IH. apply Permutation_swap.
Qed.

Lemma sorted_desc_perm (entities : list Entity) :
  sorted_desc entities ≡ₚ entities.
Proof.
  induction entities as [|x l IH]; simpl; [reflexivity|].
  rewrite insert_desc_perm. now rewrite IH.
Qed.

Lemma insert_desc_sorted (x : Entity) (l : list Entity) :
  StronglySorted start_desc l -> StronglySorted start_desc (insert_desc x l).
Proof.
  induction l as [|y l IH]; intros Hs; simpl.
  - repeat constructor.
  - destruct (Z.leb_spec (start_key y) (start_key x)) as [Hle|Hgt].
    + constructor; [exact Hs|].
      inversion_clear Hs as [|? ? Hl Hy]. constructor; [exact Hle|].
      eapply Forall_impl; [exact Hy|]. unfold start_desc. simpl. lia.
    + inversion_clear Hs as [|? ? Hl Hy]. constructor; [now apply IH|].
      rewrite insert_desc_perm. constructor; [|exact Hy].
      unfold start_desc. lia.
Qed.

Lemma sorted_desc_sorted (entities : list Entity) :
  StronglySorted start_desc (sorted_desc entities).
Proof.
  induction entities as [|x l IH]; simpl; [constructor|].
  now apply insert_desc_sorted.
Qed.

Lemma start_key_inj_on (entities : list Entity) (a b : Entity) :
  NoDup (map start_key entities) ->
  a ∈ entities -> b ∈ entities -> start_key a = start_key b -> a = b.
Proof.
  induction entities as [|x l IH]; intros Hnd Ha Hb Hk; [inversion Ha|].
  simpl in Hnd. apply NoDup_cons in Hnd as [Hx Hnd].
  assert (Hmem : forall y, y ∈ l -> start_key y ∈ map start_key l).
  { intros y Hy. apply list_elem_of_In, in_map, list_elem_of_In, Hy. }
  apply elem_of_cons in Ha as [->|Ha]; apply elem_of_cons in Hb as [->|Hb].
  - reflexivity.
  - exfalso. apply Hx. rewrite Hk. now apply Hmem.
  - exfalso. apply Hx. rewrite <- Hk. now apply Hmem.
  - now apply IH.
Qed.

(** Entities of pairwise distinct start are sorted into one order, whatever
    the order they come in. *)
Lemma sorted_desc_permutation (entities entities' : list Entity) :
  NoDup (map start_key entities) ->
  entities ≡ₚ entities' ->
  sorted_desc entities = sorted_desc entities'.
Proof.
  intros Hnd Hperm.
  apply (StronglySorted_unique_strong start_desc);
    [|apply sorted_desc_sorted..|].
  - intros a b Ha Hb Hab Hba.
    apply (start_key_inj_on entities); [exact Hnd| | |].
    + now rewrite sorted_desc_perm in Ha.
    + now rewrite sorted_desc_perm, <- Hperm in Hb.
    + unfold start_desc in *. lia.
  - now rewrite !sorted_desc_perm.
Qed.

(** ** Characters outside the spans *)

Lemma untouched_from_app (entities : list Entity) (i : nat) (a b : str) :
  untouched_from entities i (a ++ b)
  = untouched_from entities i a ++ untouched_from entities (i + length a) b.
Proof.
  revert i. induction a as [|c a IH]; intros i; simpl.
  - now rewrite Nat.add_0_r.
  - rewrite IH. replace (S i + length a)%nat with (i + S (length a))%nat by lia.
    destruct (covered entities i); reflexivity.
Qed.

Lemma untouched_from_ext (P Q : list Entity) (i : nat) (s : str) :
  (forall j, (i <= j < i + length s)%nat -> covered P j = covered Q j) ->
  untouched_from P i s = untouched_from Q i s.
Proof.
  revert i. induction s as [|c s IH]; intros i Hcov; simpl; [reflexivity|].
  rewrite (Hcov i) by (simpl; lia).
  rewrite (IH (S i)); [reflexivity|].
  intros j Hj. apply Hcov. simpl. lia.
Qed.

Lemma untouched_from_clear (P : list Entity) (i : nat) (s : str) :
  (forall j, (i <= j < i + length s)%nat -> covered P j = false) ->
  untouched_from P i s = s.
Proof.
  revert i. induction s as [|c s IH]; intros i Hcov; simpl; [reflexivity|].
  rewrite (Hcov i) by (simpl; lia). f_equal.
  apply IH. intros j Hj. apply Hcov. simpl. lia.
Qed.

Lemma untouched_from_all (P : list Entity) (i : nat) (s : str) :
  (forall j, (i <= j < i + length s)%nat -> covered P j = true) ->
  untouched_from P i s = [].
Proof.
  revert i. induction s as [|c s IH]; intros i Hcov; simpl; [reflexivity|].
  rewrite (Hcov i) by (simpl; lia).
  apply IH. intros j Hj. apply Hcov. simpl. lia.
Qed.

Lemma covered_none (P : list Entity) (j : nat) :
  (forall e, e ∈ P -> in_span e j = false) -> covered P j = false.
Proof.
  induction P as [|e P IH]; intros Hno; simpl; [reflexivity|].
  rewrite (Hno e) by constructor. simpl.
  apply IH. intros x Hx. apply Hno. now constructor.
Qed.

Lemma covered_perm (P Q : list Entity) (j : nat) :
  P ≡ₚ Q -> covered P j = covered Q j.
Proof.
  induction 1 as [|x P Q _ IH|x y P|P Q R _ IH1 _ IH2]; simpl.
  - reflexivity.
  - now rewrite IH.
  - rewrite !orb_assoc. f_equal. apply orb_comm.
  - congruence.
Qed.

Lemma overlap_sym (a b : Entity) : overlap a b = overlap b a.
Proof.
  unfold overlap.
  destruct (ent_start a), (ent_end a), (ent_start b), (ent_end b);
    try reflexivity.
  now rewrite Z.max_comm, Z.min_comm.
Qed.

Lemma pairwise_non_overlapping_perm (P Q : list Entity) :
  P ≡ₚ Q ->
  pairwise_non_overlapping P = true -> pairwise_non_overlapping Q = true.
Proof.
  induction 1 as [|x P Q Hperm IH|x y P|P Q R _ IH1 _ IH2]; simpl.
  - trivial.
  - rewrite !andb_true_iff, !forallb_forall. intros [Hx HP].
    split; [|now apply IH]. intros z Hz. apply Hx.
    apply list_elem_of_In. rewrite Hperm. now apply list_elem_of_In.
  - rewrite !andb_true_iff. intros [[Hyx Hy] [Hx HP]].
    rewrite (overlap_sym x y). now rewrite Hyx, Hx, Hy, HP.
  - auto.
Qed.

Lemma valid_offsets_bounded (text : str) (e : Entity) :
  valid_offsets text e = true -> bounded text e.
Proof.
  unfold valid_offsets, bounded.
  destruct (ent_start e) as [s|], (ent_end e) as [t|]; try discriminate.
  rewrite !andb_true_iff, !Z.leb_le. intros [[H1 H2] H3].
  exists s, t. repeat split; auto.
Qed.

Lemma sublist_drop_inserts (k : nat) (r X : str) :
  drop k X `sublist_of` drop k (r ++ X).
Proof.
  rewrite drop_app. apply sublist_inserts_l.
  replace (drop k X) with (drop (k - (k - length r)) (drop (k - length r) X)).
  - apply sublist_drop.
  - rewrite drop_drop. f_equal. lia.
Qed.

Lemma splice_inv_perm (text : str) (P Q : list Entity) (cur : str) :
  P ≡ₚ Q -> splice_inv text P cur -> splice_inv text Q cur.
Proof.
  intros Hperm [Ha Hb]. split.
  - intros q Hq Hall. apply Ha; [exact Hq|].
    intros e He. apply Hall. now rewrite <- Hperm.
  - intros p Hp Hall.
    rewrite (untouched_from_ext Q P).
    + apply Hb; [exact Hp|]. intros e s t He. apply Hall. now rewrite <- Hperm.
    + intros j _. symmetry. now apply covered_perm.
Qed.

Lemma splice_inv_init (text : str) : splice_inv text [] text.
Proof.
  split; [reflexivity|]. intros p _ _.
  rewrite untouched_from_clear; [reflexivity | reflexivity].
Qed.

(** One splice keeps the invariant, when the range starts no later than
    those already replaced and overlaps none of them. *)
Lemma splice_inv_step (text : str) (P : list Entity) (cur : str)
    (e : Entity) (s t : Z) (r : str) :
  Forall (bounded text) P ->
  ent_start e = Some s -> ent_end e = Some t ->
  0 <= s /\ s <= t /\ t <= Z.of_nat (length text) ->
  (forall x, x ∈ P -> s <= start_key x) ->
  (forall x, x ∈ P -> overlap e x = false) ->
  splice_inv text P cur ->
  splice_inv text (e :: P)
    (take (Z.to_nat s) cur ++ r ++ drop (Z.to_nat t) cur).
Proof.
  intros HP Hs Ht Hst Hstart Hov [Ha Hb].
  rewrite Forall_forall in HP.
  set (sn := Z.to_nat s). set (tn := Z.to_nat t).
  assert (Hsn : (sn <= tn <= length text)%nat) by (unfold sn, tn; lia).
  assert (Hkey : start_key e = s) by (unfold start_key; now rewrite Hs).
  assert (F1 : take sn cur = take sn text).
  { apply Ha; [lia|]. intros x Hx. specialize (Hstart x Hx). unfold sn. lia. }
  assert (F2 : length (take sn cur) = sn).
  { rewrite F1. apply length_take_le. lia. }
  assert (Hspan_e : forall j, in_span e j
            = (s <=? Z.of_nat j) && (Z.of_nat j <? t)).
  { intros j. unfold in_span. now rewrite Hs, Ht. }
  assert (Hbefore : forall x j, x ∈ P -> (j < sn)%nat -> in_span x j = false).
  { intros x j Hx Hj. destruct (HP x Hx) as (sx & tx & Hsx & Htx & Hb').
    specialize (Hstart x Hx). unfold start_key in Hstart. rewrite Hsx in Hstart.
    simpl in Hstart. unfold in_span. rewrite Hsx, Htx.
    apply andb_false_iff. left. apply Z.leb_gt. unfold sn in Hj. lia. }
  assert (F3 : forall x sx tx, x ∈ P -> ent_start x = Some sx ->
            ent_end x = Some tx -> sx < tx -> t <= sx).
  { intros x sx tx Hx Hsx Htx Hlt. specialize (Hov x Hx). specialize (Hstart x Hx).
    unfold overlap in Hov. rewrite Hs, Ht, Hsx, Htx in Hov.
    apply Z.ltb_ge in Hov. unfold start_key in Hstart. rewrite Hsx in Hstart.
    simpl in Hstart. lia. }
  split.
  - intros q Hq Hall.
    assert (q <= sn)%nat.
    { specialize (Hall e (list_elem_of_here e P)). unfold sn. lia. }
    rewrite take_app_le by lia. rewrite F1, take_take.
    f_equal. lia.
  - intros p Hp Hcond.
    destruct (le_lt_dec p sn) as [Hle|Hgt].
    + rewrite drop_app_le by lia. rewrite F1.
      assert (Hsplit : drop p text
                = drop p (take sn text)
                    ++ take (tn - sn) (drop sn text) ++ drop tn text).
      { rewrite <- (drop_take_drop text p sn) by exact Hle. f_equal.
        rewrite <- (take_drop (tn - sn) (drop sn text)) at 1.
        f_equal. rewrite drop_drop. f_equal. lia. }
      rewrite Hsplit, !untouched_from_app.
      assert (L1 : length (drop p (take sn text)) = (sn - p)%nat).
      { rewrite length_drop, length_take_le; lia. }
      assert (L2 : length (take (tn - sn) (drop sn text)) = (tn - sn)%nat).
      { rewrite length_take_le; [reflexivity|]. rewrite length_drop. lia. }
      rewrite L1, L2.
      replace (p + (sn - p))%nat with sn by lia.
      replace (sn + (tn - sn))%nat with tn by lia.
      rewrite untouched_from_clear, untouched_from_all.
      * simpl. apply sublist_app; [reflexivity|]. apply sublist_inserts_l.
        rewrite (untouched_from_ext (e :: P) P).
        -- apply Hb; [lia|]. intros x sx tx Hx Hsx Htx Hlt.
           specialize (F3 x sx tx Hx Hsx Htx Hlt). unfold tn. lia.
        -- intros j Hj. simpl. rewrite Hspan_e.
           replace (Z.of_nat j <? t) with false; [now rewrite andb_false_r|].
           symmetry. apply Z.ltb_ge. unfold tn in Hj. lia.
      * intros j Hj. rewrite L2 in Hj. simpl. rewrite Hspan_e.
        replace (s <=? Z.of_nat j) with true
          by (symmetry; apply Z.leb_le; unfold sn in Hj; lia).
        replace (Z.of_nat j <? t) with true
          by (symmetry; apply Z.ltb_lt; unfold sn, tn in Hj; lia).
        reflexivity.
      * intros j Hj. rewrite L1 in Hj. simpl. rewrite Hspan_e.
        replace (s <=? Z.of_nat j) with false
          by (symmetry; apply Z.leb_gt; unfold sn in Hj; lia).
        simpl. apply covered_none. intros x Hx. apply Hbefore; [exact Hx | lia].
    + assert (Hempty : t <= s).
      { destruct (Z_lt_le_dec s t) as [Hlt|Hge]; [|exact Hge].
        specialize (Hcond e s t (list_elem_of_here e P) Hs Ht Hlt).
        unfold sn in Hgt. lia. }
      assert (tn = sn) by (unfold sn, tn; lia).
      rewrite drop_app_ge by lia. rewrite F2.
      rewrite (untouched_from_ext (e :: P) P).
      * etransitivity; [|apply sublist_drop_inserts].
        replace (drop (p - sn) (drop tn cur)) with (drop p cur)
          by (rewrite drop_drop; f_equal; lia).
        apply Hb; [exact Hp|]. intros x sx tx Hx. apply Hcond. now constructor.
      * intros j _. simpl. rewrite Hspan_e.
        replace ((s <=? Z.of_nat j) && (Z.of_nat j <? t)) with false;
          [reflexivity|].
        symmetry. apply andb_false_iff.
        destruct (Z.leb_spec s (Z.of_nat j)); [right; apply Z.ltb_ge; lia | now left].
Qed.

(** ** Span redactor: the whole list *)

Section RedactorLoop.

Variable Rng : Type.
Variable faker : str -> Rng -> str * Rng.

Lemma redact_loop_returns (sorted_entities : list Entity) (text : str)
    (fake : Fake Rng) :
  Forall (fun e => is_Some (ent_label e) /\ is_Some (ent_text e))
    sorted_entities ->
  exists out fake', redact_loop faker sorted_entities text fake = Ok (out, fake').
Proof.
  intros Hall. revert text fake.
  induction Hall as [|e l [[label Hl] [matched Ht]] _ IH]; intros text fake.
  - now exists text, fake.
  - destruct (get_replacement_returns Rng faker label matched fake)
      as (r & fake1 & Hr).
    destruct (preserve_capitalization_returns Rng matched r) as [cased Hc].
    simpl. unfold bind.
    rewrite (redact_entity_eq _ faker e label matched text r cased fake fake1
               Hl Ht Hr (Hc fake1)).
    apply IH.
Qed.

Lemma well_formed_keys (text : str) (e : Entity) :
  well_formed text e = true -> is_Some (ent_label e) /\ is_Some (ent_text e).
Proof.
  unfold well_formed. destruct (ent_label e), (ent_text e); try discriminate.
  intros _. split; eauto.
Qed.

(** C8. On well-formed entity spans [replace_pii_in_text] returns a string:
    no [KeyError] is raised, whatever the matched substrings and whatever
    the synthesizer produces, the empty string included. *)
Theorem replace_pii_in_text_returns (text : str) (entities : list Entity)
    (fake : Fake Rng) :
  forallb (well_formed text) entities = true ->
  exists out fake', replace_pii_in_text faker text entities fake = Ok (out, fake').
Proof.
  intros Hwf. unfold replace_pii_in_text.
  destruct entities as [|e l]; [now exists text, fake|].
  apply redact_loop_returns.
  rewrite sorted_desc_perm. apply Forall_forall. intros x Hx.
  apply (well_formed_keys text).
  rewrite forallb_forall in Hwf. apply Hwf, list_elem_of_In, Hx.
Qed.

(** C3, for spans of pairwise distinct start.  Valid, pairwise
    non-overlapping spans whose start offsets are pairwise distinct are
    brought into one order by the sort, so that the output does not depend
    on the order of the input list, from whatever state the synthesizer
    starts in. *)
Theorem replace_pii_in_text_permutation (text : str)
    (entities entities' : list Entity) (fake : Fake Rng) :
  forallb (valid_offsets text) entities = true ->
  pairwise_non_overlapping entities = true ->
  NoDup (map start_key entities) ->
  entities ≡ₚ entities' ->
  replace_pii_in_text faker text entities fake
  = replace_pii_in_text faker text entities' fake.
Proof.
  intros _ _ Hnd Hperm. unfold replace_pii_in_text.
  rewrite (sorted_desc_permutation entities entities' Hnd Hperm).
  destruct entities as [|e l].
  - apply Permutation_nil in Hperm. now subst.
  - destruct entities' as [|e' l']; [|reflexivity].
    symmetry in Hperm. apply Permutation_nil in Hperm. discriminate.
Qed.

Lemma redact_loop_splice_inv (text : str) (l : list Entity) :
  forall (P : list Entity) (cur : str) (fake : Fake Rng),
    Forall (fun e => has_label_and_text e = true) l ->
    Forall (bounded text) l ->
    StronglySorted start_desc l ->
    pairwise_non_overlapping l = true ->
    (forall x y, x ∈ l -> y ∈ P ->
                 start_key x <= start_key y /\ overlap x y = false) ->
    Forall (bounded text) P ->
    splice_inv text P cur ->
    exists out fake',
      redact_loop faker l cur fake = Ok (out, fake')
      /\ splice_inv text (l ++ P) out.
Proof.
  induction l as [|e l IH]; intros P cur fake Hkeys Hbnd Hsorted Hpw Hrel HP Hinv.
  - exists cur, fake. split; [reflexivity | exact Hinv].
  - apply Forall_cons in Hkeys as [Hk Hkeys].
    apply Forall_cons in Hbnd as [(s & t & Hs & Ht & Hst) Hbnd].
    apply StronglySorted_inv in Hsorted as [Hsorted Hhead].
    simpl in Hpw. apply andb_true_iff in Hpw as [Hov Hpw].
    rewrite forallb_forall in Hov. rewrite Forall_forall in Hhead.
    unfold has_label_and_text in Hk.
    destruct (ent_label e) as [label|] eqn:Hl; [|discriminate].
    destruct (ent_text e) as [matched|] eqn:Hm; [|discriminate].
    assert (Hkey : start_key e = s) by (unfold start_key; now rewrite Hs).
    destruct (get_replacement_returns Rng faker label matched fake)
      as (r & fake1 & Hr).
    destruct (preserve_capitalization_returns Rng matched r) as [cased Hc].
    simpl. unfold bind.
    rewrite (redact_entity_eq _ faker e label matched cur r cased fake fake1
               Hl Hm Hr (Hc fake1)).
    rewrite Hs, Ht.
    rewrite slice_to_nonneg, slice_from_nonneg by lia.
    destruct (IH (e :: P)
                (take (Z.to_nat s) cur ++ cased ++ drop (Z.to_nat t) cur)
                fake1)
      as (out & fake' & Hrun & Hout); try assumption.
    + intros x y Hx Hy. apply elem_of_cons in Hy as [->|Hy].
      * split.
        -- apply (Hhead x Hx).
        -- rewrite overlap_sym. apply negb_true_iff, Hov, list_elem_of_In, Hx.
      * apply Hrel; [now constructor | exact Hy].
    + constructor; [|exact HP]. now exists s, t.
    + apply splice_inv_step; try assumption.
      * intros x Hx. rewrite <- Hkey. apply Hrel; [constructor | exact Hx].
      * intros x Hx. apply Hrel; [constructor | exact Hx].
    + exists out, fake'. split; [exact Hrun|].
      eapply splice_inv_perm; [|exact Hout].
      symmetry. apply Permutation_middle.
Qed.

(** C1. For entities that all carry offsets with
    [0 <= start <= end <= len(text)] and whose ranges do not overlap, the
    characters of [text] that lie in no range are all found in the output
    of [replace_pii_in_text], unchanged and in their order. *)
Theorem replace_pii_in_text_keeps_untouched (text : str)
    (entities : list Entity) (fake : Fake Rng) :
  forallb has_label_and_text entities = true ->
  forallb (valid_offsets text) entities = true ->
  pairwise_non_overlapping entities = true ->
  exists out fake',
    replace_pii_in_text faker text entities fake = Ok (out, fake')
    /\ untouched text entities `sublist_of` out.
Proof.
  intros Hkeys Hvalid Hpw.
  destruct entities as [|e0 l0] eqn:E.
  { exists text, fake. split; [reflexivity|]. unfold untouched.
    rewrite untouched_from_clear; [reflexivity | reflexivity]. }
  rewrite <- E in *. clear E e0 l0.
  assert (Hrun : replace_pii_in_text faker text entities fake
                 = redact_loop faker (sorted_desc entities) text fake).
  { unfold replace_pii_in_text. destruct entities; reflexivity. }
  rewrite Hrun.
  rewrite forallb_forall in Hkeys, Hvalid.
  destruct (redact_loop_splice_inv text (sorted_desc entities) [] text fake)
    as (out & fake' & Hloop & [_ Hb]).
  - rewrite sorted_desc_perm. apply Forall_forall. intros x Hx.
    apply Hkeys, list_elem_of_In, Hx.
  - rewrite sorted_desc_perm. apply Forall_forall. intros x Hx.
    apply valid_offsets_bounded, Hvalid, list_elem_of_In, Hx.
  - apply sorted_desc_sorted.
  - apply (pairwise_non_overlapping_perm entities); [|exact Hpw].
    symmetry. apply sorted_desc_perm.
  - intros x y _ Hy. inversion Hy.
  - constructor.
  - apply splice_inv_init.
  - exists out, fake'. split; [exact Hloop|].
    specialize (Hb 0%nat). rewrite !drop_0 in Hb.
    unfold untouched.
    rewrite (untouched_from_ext entities (sorted_desc entities ++ [])).
    + apply Hb; [lia|]. intros x s t Hx Hs Ht _.
      rewrite app_nil_r, sorted_desc_perm in Hx.
      apply list_elem_of_In, Hvalid in Hx. unfold valid_offsets in Hx.
      rewrite Hs, Ht in Hx. rewrite !andb_true_iff, !Z.leb_le in Hx. lia.
    + intros j _. apply covered_perm.
      rewrite app_nil_r. symmetry. apply sorted_desc_perm.
Qed.

End RedactorLoop.

(** ** The redactor read from left to right: facts *)

Lemma drop_take_sub (T : str) (pos s : nat) :
  drop pos (take s T) = take (s - pos) (drop pos T).
Proof.
  destruct (le_lt_dec pos s) as [Hle|Hgt].
  - rewrite take_drop_commute. do 2 f_equal. lia.
  - replace (s - pos)%nat with 0%nat by lia. rewrite take_0.
    apply drop_ge. rewrite length_take. lia.
Qed.

Lemma weave_snoc (T : str) (e : Entity) (r : str)
    (a : list (Entity * str)) (pos : nat) :
  Forall (fun p => (span_start (fst p) <= span_start e)%nat) a ->
  weave T pos (a ++ [(e, r)])
  = weave (take (span_start e) T) pos a ++ r ++ drop (span_end e) T.
Proof.
  intros Ha. revert pos.
  induction Ha as [|[e1 r1] a H1 _ IH]; intros pos; simpl.
  - now rewrite drop_take_sub.
  - rewrite IH, drop_take_sub, take_take. simpl in H1.
    rewrite <- !app_assoc. do 2 f_equal. lia.
Qed.

Lemma str_upper_ascii_facts (s : str) :
  is_ascii s ->
  is_ascii (str_upper s)
  /\ length (str_upper s) = length s
  /\ str_upper (str_upper s) = str_upper s.
Proof.
  intros Ha. rewrite (str_upper_ascii s Ha).
  assert (Hu : is_ascii (map ascii_toupper s)).
  { unfold is_ascii in *. rewrite Forall_forall in Ha. apply Forall_forall.
    intros c Hc. apply list_elem_of_In, in_map_iff in Hc as (x & <- & Hx).
    apply ascii_toupper_range, Ha, list_elem_of_In, Hx. }
  split; [exact Hu|]. split; [apply length_map|].
  rewrite (str_upper_ascii _ Hu), map_map.
  apply map_ext, ascii_toupper_idemp.
Qed.

Lemma insert_desc_filter (k : Z) (x : Entity) (l : list Entity) :
  List.filter (fun e => start_key e =? k) (insert_desc x l)
  = List.filter (fun e => start_key e =? k) (x :: l).
Proof.
  induction l as [|y l IH]; [reflexivity|].
  simpl insert_desc.
  destruct (Z.leb_spec (start_key y) (start_key x)) as [Hle|Hgt];
    [reflexivity|].
  simpl. rewrite IH. simpl.
  destruct (Z.eqb_spec (start_key y) k), (Z.eqb_spec (start_key x) k);
    try reflexivity.
  lia.
Qed.

(** X3. The order in which [replace_pii_in_text] walks the entities:
    [sorted(..., reverse=True)] rearranges the input list, every entity
    once, by non-increasing sort key, an entity without ['start'] counting
    as 0, and entities of one key stay in the order of the input. *)
Theorem sorted_desc_stable (entities : list Entity) :
  sorted_desc entities ≡ₚ entities
  /\ StronglySorted (fun a b => start_key b <= start_key a)
       (sorted_desc entities)
  /\ (forall k, List.filter (fun e => start_key e =? k) (sorted_desc entities)
                = List.filter (fun e => start_key e =? k) entities)
  /\ (forall e, ent_start e = None -> start_key e = 0).
Proof.
  split; [apply sorted_desc_perm|]. split; [apply sorted_desc_sorted|]. split.
  - intros k. induction entities as [|x l IH]; [reflexivity|].
    simpl sorted_desc. rewrite insert_desc_filter. simpl. now rewrite IH.
  - intros e He. unfold start_key. now rewrite He.
Qed.

Section LeftToRightFacts.

Variable Rng : Type.
Variable faker : str -> Rng -> str * Rng.

Lemma redact_entity_cased (e : Entity) (cur r : str) (fake f1 : Fake Rng) :
  cased_replacement faker e fake = Ok (r, f1) ->
  redact_entity faker e cur fake =
    Ok (match ent_start e, ent_end e with
        | Some start, Some end_ =>
            slice_to cur start ++ r ++ slice_from cur end_
        | _, _ => replace_first (default [] (ent_text e)) r cur
        end, f1).
Proof.
  unfold cased_replacement, redact_entity, bind, getitem, ret, raise.
  destruct (ent_label e) as [label|]; [|discriminate].
  destruct (ent_text e) as [matched|]; [|discriminate].
  destruct (get_replacement faker label matched fake) as [[r0 f0]|]; [|discriminate].
  intros ->. destruct (ent_start e), (ent_end e); reflexivity.
Qed.

Lemma cased_replacements_cons (e : Entity) (l : list Entity) (rs : list str)
    (fake fake' : Fake Rng) :
  cased_replacements faker (e :: l) fake = Ok (rs, fake') ->
  exists r rs' f1,
    cased_replacement faker e fake = Ok (r, f1)
    /\ cased_replacements faker l f1 = Ok (rs', fake')
    /\ rs = r :: rs'.
Proof.
  simpl. unfold bind, ret.
  destruct (cased_replacement faker e fake) as [[r f1]|] eqn:E1; [|discriminate].
  destruct (cased_replacements faker l f1) as [[rs' f2]|] eqn:E2; [|discriminate].
  intros [= <- <-]. exists r, rs', f1. auto.
Qed.

Lemma redact_loop_weave (text : str) (l : list Entity) :
  forall (rs : list str) (cur R : str) (m : nat) (fake fake' : Fake Rng),
    Forall (bounded text) l ->
    StronglySorted before l ->
    Forall (fun e => (span_end e <= m)%nat) l ->
    (m <= length text)%nat ->
    cur = take m text ++ R ->
    cased_replacements faker l fake = Ok (rs, fake') ->
    redact_loop faker l cur fake
    = Ok (weave (take m text) 0 (rev (zip l rs)) ++ R, fake').
Proof.
  induction l as [|e l IH]; intros rs cur R m fake fake' Hb Hs Hm Hlen -> Hrs.
  - simpl in Hrs. injection Hrs as <- <-. reflexivity.
  - apply cased_replacements_cons in Hrs as (r & rs' & f1 & Hr & Hrs' & ->).
    apply Forall_cons in Hb as [(s & t & Hst & Hen & H0 & H1 & H2) Hb].
    apply StronglySorted_inv in Hs as [Hs Hhead].
    apply Forall_cons in Hm as [Hem Hm].
    assert (Hss : span_start e = Z.to_nat s)
      by (unfold span_start; now rewrite Hst).
    assert (Hse : span_end e = Z.to_nat t)
      by (unfold span_end; now rewrite Hen).
    simpl redact_loop. unfold bind.
    rewrite (redact_entity_cased e _ r fake f1 Hr), Hst, Hen.
    rewrite slice_to_nonneg, slice_from_nonneg by lia.
    rewrite <- Hss, <- Hse.
    assert (Hsm : (span_start e <= span_end e <= m)%nat) by lia.
    rewrite take_app_le by (rewrite length_take; lia).
    rewrite take_take, drop_app_le by (rewrite length_take; lia).
    replace (span_start e `min` m)%nat with (span_start e) by lia.
    rewrite (IH rs' _ (r ++ drop (span_end e) (take m text) ++ R)
               (span_start e) f1 fake'); try assumption; try lia.
    + simpl zip. simpl rev. rewrite weave_snoc.
      * rewrite take_take.
        replace (span_start e `min` m)%nat with (span_start e) by lia.
        now rewrite <- !app_assoc.
      * apply Forall_forall. intros [b rb] Hin.
        apply list_elem_of_In, in_rev, list_elem_of_In, elem_of_zip_l in Hin.
        simpl in *. rewrite Forall_forall in Hhead, Hb.
        specialize (Hhead b Hin). unfold before in Hhead.
        destruct (Hb b Hin) as (sb & tb & Hsb & Htb & ? & ? & ?).
        unfold span_start, span_end in *. rewrite Hsb, Htb in *. simpl in *. lia.
    + reflexivity.
Qed.

Lemma separated_chain (text : str) (l : list Entity) :
  Forall (bounded text) l ->
  Forall (fun e => nonempty_span e = true) l ->
  StronglySorted start_desc l ->
  pairwise_non_overlapping l = true ->
  StronglySorted before l.
Proof.
  induction l as [|e l IH]; intros Hb Hne Hs Hpw; [constructor|].
  apply Forall_cons in Hb as [(s & t & Hst & Hen & H0 & H1 & H2) Hb].
  apply Forall_cons in Hne as [He Hne].
  apply StronglySorted_inv in Hs as [Hs Hhead].
  simpl in Hpw. apply andb_true_iff in Hpw as [Hov Hpw].
  constructor; [now apply IH|].
  rewrite Forall_forall in Hb, Hne, Hhead |- *. rewrite forallb_forall in Hov.
  intros b Hin.
  destruct (Hb b Hin) as (sb & tb & Hsb & Htb & ? & ? & ?).
  specialize (Hne b Hin). specialize (Hhead b Hin).
  apply list_elem_of_In, Hov, negb_true_iff in Hin.
  unfold overlap in Hin. rewrite Hst, Hen, Hsb, Htb in Hin.
  apply Z.ltb_ge in Hin.
  unfold nonempty_span in He, Hne. rewrite Hst, Hen in He.
  rewrite Hsb, Htb in Hne. apply Z.ltb_lt in He, Hne.
  unfold start_desc, start_key in Hhead. rewrite Hst, Hsb in Hhead.
  simpl in Hhead.
  unfold before, span_start, span_end. rewrite Hst, Htb. simpl. lia.
Qed.

(** X1. For non-empty spans with valid, pairwise non-overlapping offsets,
    the output of [replace_pii_in_text] is the text in which, from left to
    right, every range has given way to the cased replacement computed for
    its entity, and everything between the ranges is copied as it is. *)
Theorem replace_pii_in_text_weave (text : str) (entities : list Entity)
    (rs : list str) (fake fake' : Fake Rng) :
  forallb (valid_offsets text) entities = true ->
  forallb nonempty_span entities = true ->
  pairwise_non_overlapping entities = true ->
  cased_replacements faker (sorted_desc entities) fake = Ok (rs, fake') ->
  replace_pii_in_text faker text entities fake
  = Ok (weave text 0 (rev (zip (sorted_desc entities) rs)), fake').
Proof.
  intros Hvalid Hne Hpw Hrs.
  assert (Hrun : replace_pii_in_text faker text entities fake
                 = redact_loop faker (sorted_desc entities) text fake).
  { unfold replace_pii_in_text. destruct entities; reflexivity. }
  rewrite Hrun. rewrite forallb_forall in Hvalid, Hne.
  assert (Hb : Forall (bounded text) (sorted_desc entities)).
  { rewrite sorted_desc_perm. apply Forall_forall. intros x Hx.
    apply valid_offsets_bounded, Hvalid, list_elem_of_In, Hx. }
  rewrite (redact_loop_weave text (sorted_desc entities) rs text []
             (length text) fake fake'); try assumption.
  - now rewrite take_ge, app_nil_r by lia.
  - apply (separated_chain text); [exact Hb| | |].
    + rewrite sorted_desc_perm. apply Forall_forall. intros x Hx.
      apply Hne, list_elem_of_In, Hx.
    + apply sorted_desc_sorted.
    + apply (pairwise_non_overlapping_perm entities); [|exact Hpw].
      symmetry. apply sorted_desc_perm.
  - eapply Forall_impl; [exact Hb|]. intros e (s & t & Hs & Ht & ? & ? & ?).
    unfold span_end. rewrite Ht. simpl. lia.
  - lia.
  - now rewrite take_ge, app_nil_r by lia.
Qed.

Lemma redact_loop_key_error (l : list Entity) :
  forall (cur : str) (fake : Fake Rng),
    Exists (fun e => has_label_and_text e = false) l ->
    exists key,
      redact_loop faker l cur fake = Raise (KeyError key)
      /\ (key = py "label" \/ key = py "text").
Proof.
  induction l as [|e l IH]; intros cur fake Hex; [inversion Hex|].
  simpl. unfold bind.
  destruct (has_label_and_text e) eqn:Hk.
  - unfold has_label_and_text in Hk.
    destruct (ent_label e) as [label|] eqn:Hl; [|discriminate].
    destruct (ent_text e) as [matched|] eqn:Hm; [|discriminate].
    destruct (get_replacement_returns Rng faker label matched fake)
      as (r & f1 & Hr).
    destruct (preserve_capitalization_returns Rng matched r) as [cased Hc].
    rewrite (redact_entity_eq _ faker e label matched cur r cased fake f1
               Hl Hm Hr (Hc f1)).
    apply IH. apply Exists_cons in Hex as [Hhd|Htl]; [|exact Htl].
    unfold has_label_and_text in Hhd. rewrite Hl, Hm in Hhd. discriminate.
  - unfold has_label_and_text in Hk.
    unfold redact_entity, bind, getitem, raise.
    destruct (ent_label e) as [label|].
    + destruct (ent_text e); [discriminate|].
      exists (py "text"). split; [reflexivity | now right].
    + exists (py "label"). split; [reflexivity | now left].
Qed.

(** X2. [replace_pii_in_text] returns a string exactly when every entity
    has the keys ['label'] and ['text']; otherwise the call ends in a
    [KeyError] for one of the two keys, and no text is returned. *)
Theorem replace_pii_in_text_key_error (text : str) (entities : list Entity)
    (fake : Fake Rng) :
  if forallb has_label_and_text entities
  then exists out fake',
         replace_pii_in_text faker text entities fake = Ok (out, fake')
  else exists key,
         replace_pii_in_text faker text entities fake = Raise (KeyError key)
         /\ (key = py "label" \/ key = py "text").
Proof.
  destruct (forallb has_label_and_text entities) eqn:Hall.
  - unfold replace_pii_in_text.
    destruct entities as [|e l]; [now exists text, fake|].
    apply redact_loop_returns. rewrite sorted_desc_perm.
    apply Forall_forall. intros x Hx. rewrite forallb_forall in Hall.
    apply list_elem_of_In, Hall in Hx. unfold has_label_and_text in Hx.
    destruct (ent_label x), (ent_text x); try discriminate. split; eauto.
  - assert (Hex : Exists (fun e => has_label_and_text e = false) entities).
    { apply Exists_exists. induction entities as [|e l IH]; [discriminate|].
      simpl in Hall. apply andb_false_iff in Hall as [He|Hl].
      - exists e. split; [constructor | exact He].
      - destruct (IH Hl) as (x & Hx & Hk). exists x.
        split; [now constructor | exact Hk]. }
    unfold replace_pii_in_text.
    destruct entities as [|e l]; [inversion Hex|].
    apply redact_loop_key_error. now rewrite sorted_desc_perm.
Qed.

(** X4. On an ASCII replacement, as every fallback constant is, the
    capitalization block changes letter case and nothing else: the cased
    replacement is ASCII, has the length of the replacement and the same
    characters up to case, and [fake] is left as it was. *)
Theorem preserve_capitalization_case_only (matched replacement cased : str)
    (fake fake' : Fake Rng) :
  is_ascii replacement ->
  preserve_capitalization matched replacement fake = Ok (cased, fake') ->
  fake' = fake
  /\ is_ascii cased
  /\ length cased = length replacement
  /\ str_upper cased = str_upper replacement.
Proof.
  intros Ha. unfold preserve_capitalization.
  destruct (str_upper_ascii_facts replacement Ha) as (Hu1 & Hu2 & Hu3).
  assert (Hup : forall f, @ret Rng str (str_upper replacement) f
                          = Ok (cased, fake') ->
                fake' = f /\ is_ascii cased
                /\ length cased = length replacement
                /\ str_upper cased = str_upper replacement).
  { intros f [= <- <-]. auto. }
  assert (Hid : forall f, @ret Rng str replacement f = Ok (cased, fake') ->
                fake' = f /\ is_ascii cased
                /\ length cased = length replacement
                /\ str_upper cased = str_upper replacement).
  { intros f [= <- <-]. auto. }
  destruct (str_isupper matched); [apply Hup|].
  destruct matched as [|c m]; [apply Hid|].
  unfold truthy. rewrite (getchar_head Rng), (bind_ret Rng), str_isupper_single.
  destruct (unicode_isupper c); [|apply Hid].
  destruct (Nat.ltb_spec 1 (length replacement)) as [Hlen|Hlen]; [|apply Hup].
  destruct replacement as [|r rest]; [simpl in Hlen; lia|].
  rewrite (getchar_head Rng), (bind_ret Rng).
  apply Forall_cons in Ha as [Hr Hrest].
  unfold str_upper. simpl.
  rewrite (unicode_toupper_ascii r Hr). simpl.
  intros [= <- <-]. split; [reflexivity|]. split; [|split].
  - constructor; [now apply ascii_toupper_range | exact Hrest].
  - reflexivity.
  - simpl. rewrite (unicode_toupper_ascii _ (ascii_toupper_range r Hr)).
    now rewrite ascii_toupper_idemp.
Qed.

End LeftToRightFacts.

(** ** Selector and synthesizer: further facts *)

Lemma get_replacement_offline_registered {Rng} (faker : str -> Rng -> str * Rng)
    (key fallback : string) (original_text : str) :
  (key, fallback) ∈ PII_TO_FAKER_fallbacks ->
  get_replacement faker (py key) original_text None = Ok (py fallback, None).
Proof.
  intros Hkv. unfold get_replacement.
  assert (Hin : py key ∈ registered_categories).
  { unfold registered_categories. apply list_elem_of_In, in_map_iff.
    exists (key, fallback). split; [reflexivity | now apply list_elem_of_In]. }
  destruct (PII_TO_FAKER_lookup_registered _ faker _ Hin) as [lam Hlam].
  rewrite Hlam.
  apply PII_TO_FAKER_lookup_Some in Hlam as (key' & fb' & Hkv' & Hk' & ->).
  apply py_inj in Hk'. subst key'.
  unfold call, generator. do 3 f_equal.
  apply (PII_TO_FAKER_fallbacks_functional key); assumption.
Qed.

Lemma replace_char_round_trip (token : str) :
  chr "_" ∉ token ->
  replace_char "_" " " (replace_char " " "_" token) = token.
Proof.
  intros Hno. unfold replace_char. rewrite map_map.
  rewrite <- (map_id token) at 2. apply map_ext_in. intros c Hc. cbv beta.
  destruct (N.eqb_spec c (chr " ")) as [->|Hs]; [reflexivity|].
  destruct (N.eqb_spec c (chr "_")) as [->|Hu]; [|reflexivity].
  exfalso. apply Hno, list_elem_of_In, Hc.
Qed.



(** X5. [get_pii_types] never returns an empty list, whatever the
    arguments: the detector is always asked for one category at least. *)
Theorem get_pii_types_nonempty (args : Args) : get_pii_types args <> [].
Proof.
  unfold get_pii_types.
  destruct (pii_types args) as [[|t ts]|];
    destruct (pii args), (phi args), (pci args); discriminate.
Qed.

(** X6. Without an explicit list ([--pii-types] absent, or empty), every
    category [get_pii_types] returns is a category of [ALL_PII_TYPES],
    whichever of the three flags are set. *)
Theorem get_pii_types_flags_in_taxonomy (args : Args) (category : str) :
  pii_types args = None \/ pii_types args = Some [] ->
  category ∈ get_pii_types args ->
  category ∈ ALL_PII_TYPES.
Proof.
  assert (H1 : Forall (fun c => c ∈ ALL_PII_TYPES) PII_GROUP)
    by decide_by_computation.
  assert (H2 : Forall (fun c => c ∈ ALL_PII_TYPES) PHI_GROUP)
    by decide_by_computation.
  assert (H3 : Forall (fun c => c ∈ ALL_PII_TYPES) PCI_GROUP)
    by decide_by_computation.
  rewrite Forall_forall in H1, H2, H3.
  intros Hsel. unfold get_pii_types.
  destruct Hsel as [-> | ->];
    destruct (pii args), (phi args), (pci args); auto.
Qed.

(** X7. The underscore form of a category selects the category: for every
    category of [ALL_PII_TYPES], the explicit token obtained by writing its
    spaces as underscores is resolved to that category. *)
Theorem get_pii_types_underscore_form (category : str) (pii phi pci : bool) :
  category ∈ ALL_PII_TYPES ->
  get_pii_types {| pii_types := Some [replace_char " " "_" category];
                   pii := pii; phi := phi; pci := pci |}
  = [category].
Proof.
  assert (H : Forall (fun c => chr "_" ∉ c) ALL_PII_TYPES)
    by decide_by_computation.
  rewrite Forall_forall in H. intros Hin.
  unfold get_pii_types. simpl.
  now rewrite replace_char_round_trip by auto.
Qed.


(** X9. Every category of [ALL_PII_TYPES] has a registered generator:
    without Faker its replacement is the non-empty fallback constant of the
    category, never the bracketed placeholder of an unregistered one. *)
Theorem taxonomy_has_generators (category : str) :
  category ∈ ALL_PII_TYPES ->
  category ∈ registered_categories
  /\ exists fallback : string,
       fallback <> ""%string
       /\ String.get 0 fallback <> Some "["%char
       /\ forall Rng (faker : str -> Rng -> str * Rng) original_text,
            get_replacement faker category original_text None
            = Ok (py fallback, None).
Proof.
  assert (H : Forall (fun c => c ∈ registered_categories) ALL_PII_TYPES)
    by decide_by_computation.
  assert (Hfb : Forall (fun kv : string * string =>
                          snd kv <> ""%string
                          /\ String.get 0 (snd kv) <> Some "["%char)
                  PII_TO_FAKER_fallbacks).
  { repeat constructor; discriminate. }
  rewrite Forall_forall in H. rewrite Forall_forall in Hfb. intros Hin.
  specialize (H _ Hin). split; [exact H|].
  unfold registered_categories in H.
  apply list_elem_of_In, in_map_iff in H as ([key fallback] & <- & Hkv).
  apply list_elem_of_In in Hkv. destruct (Hfb _ Hkv) as [Hne Hbr].
  exists fallback. split; [exact Hne|]. split; [exact Hbr|].
  intros Rng faker original_text.
  now apply get_replacement_offline_registered.
Qed.

(** ** Text extraction *)

Lemma str_lstrip_nil (s : str) :
  str_lstrip s = [] <-> forallb unicode_isspace s = true.
Proof.
  induction s as [|c s IH]; simpl; [tauto|].
  destruct (unicode_isspace c); simpl; [exact IH|].
  split; discriminate.
Qed.

Lemma str_lstrip_spaces (s : str) :
  forallb unicode_isspace (str_lstrip s) = forallb unicode_isspace s.
Proof.
  induction s as [|c s IH]; simpl; [reflexivity|].
  destruct (unicode_isspace c) eqn:E; simpl; [exact IH|].
  now rewrite E.
Qed.

Lemma forallb_rev (f : char -> bool) (s : str) :
  forallb f (rev s) = forallb f s.
Proof.
  induction s as [|c s IH]; simpl; [reflexivity|].
  rewrite forallb_app, IH. simpl. rewrite andb_true_r. apply andb_comm.
Qed.

Lemma strip_visible (text : str) : truthy (str_strip text) = visible text.
Proof.
  assert (Hv : visible text = negb (forallb unicode_isspace text)).
  { unfold visible. induction text as [|c s IH]; simpl; [reflexivity|].
    rewrite IH. now destruct (unicode_isspace c). }
  rewrite Hv. unfold str_strip, str_rstrip.
  destruct (forallb unicode_isspace text) eqn:E.
  - apply str_lstrip_nil in E. rewrite E. reflexivity.
  - destruct (rev (str_lstrip (rev (str_lstrip text)))) as [|c r] eqn:R;
      [|reflexivity].
    exfalso. apply (f_equal (@rev char)) in R. rewrite rev_involutive in R.
    simpl in R. apply str_lstrip_nil in R.
    rewrite forallb_rev, str_lstrip_spaces in R. congruence.
Qed.

Lemma extract_paragraphs_texts (i : nat) (ps : list str) :
  map element_text (extract_paragraphs i ps) = List.filter visible ps.
Proof.
  revert i. induction ps as [|p ps IH]; intros i; simpl; [reflexivity|].
  rewrite strip_visible. destruct (visible p); simpl; now rewrite IH.
Qed.

Lemma extract_cells_texts (a b c : nat) (cells : list str) :
  map element_text (extract_cells a b c cells) = List.filter visible cells.
Proof.
  revert c. induction cells as [|t cells IH]; intros c; simpl; [reflexivity|].
  rewrite strip_visible. destruct (visible t); simpl; now rewrite IH.
Qed.

Lemma filter_app_bool {A} (f : A -> bool) (l k : list A) :
  List.filter f (l ++ k) = List.filter f l ++ List.filter f k.
Proof.
  induction l as [|x l IH]; simpl; [reflexivity|].
  destruct (f x); simpl; now rewrite IH.
Qed.

Lemma extract_rows_texts (a b : nat) (rows : list (list str)) :
  map element_text (extract_rows a b rows)
  = List.filter visible (concat rows).
Proof.
  revert b. induction rows as [|row rows IH]; intros b; simpl; [reflexivity|].
  now rewrite map_app, extract_cells_texts, IH, filter_app_bool.
Qed.

Lemma extract_tables_texts (a : nat) (ts : list (list (list str))) :
  map element_text (extract_tables a ts)
  = List.filter visible (concat (map (@concat str) ts)).
Proof.
  revert a. induction ts as [|t ts IH]; intros a; simpl; [reflexivity|].
  now rewrite map_app, extract_rows_texts, IH, filter_app_bool.
Qed.

(** X10. [extract_all_text] yields the texts of the document in reading
    order, the paragraphs first and then the cells table by table and row
    by row, leaving out exactly the texts that have no character other than
    white space. *)
Theorem extract_all_text_texts (document : Document) :
  map element_text (extract_all_text document)
  = List.filter visible
      (paragraphs document ++ concat (map (@concat str) (tables document))).
Proof.
  unfold extract_all_text.
  now rewrite map_app, extract_paragraphs_texts, extract_tables_texts,
    filter_app_bool.
Qed.

Lemma extract_paragraphs_in (i0 : nat) (ps : list str) (el : Element) :
  el ∈ extract_paragraphs i0 ps <->
  exists i text, el = paragraph_element (i0 + i) text
                 /\ ps !! i = Some text /\ visible text = true.
Proof.
  revert i0. induction ps as [|p ps IH]; intros i0; simpl.
  - split; [intros H; inversion H | intros (i & t & _ & H & _); discriminate].
  - rewrite strip_visible.
    assert (Htail : el ∈ extract_paragraphs (S i0) ps <->
              exists i text, el = paragraph_element (i0 + S i) text
                             /\ ps !! i = Some text /\ visible text = true).
    { rewrite IH. split; intros (i & t & He & Hl & Hv); exists i, t;
        (split; [|auto]); rewrite He; f_equal; lia. }
    destruct (visible p) eqn:Hp.
    + rewrite elem_of_cons, Htail. split.
      * intros [->|(i & t & He & Hl & Hv)].
        -- exists 0%nat, p. rewrite Nat.add_0_r. auto.
        -- exists (S i), t. auto.
      * intros (i & t & He & Hl & Hv). destruct i as [|i].
        -- left. simpl in Hl. injection Hl as ->.
           now rewrite Nat.add_0_r in He.
        -- right. exists i, t. auto.
    + rewrite Htail. split.
      * intros (i & t & He & Hl & Hv). exists (S i), t. auto.
      * intros (i & t & He & Hl & Hv). destruct i as [|i].
        -- simpl in Hl. injection Hl as ->. congruence.
        -- exists i, t. auto.
Qed.

Lemma extract_cells_in (a b c0 : nat) (cells : list str) (el : Element) :
  el ∈ extract_cells a b c0 cells <->
  exists c text, el = table_cell_element a b (c0 + c) text
                 /\ cells !! c = Some text /\ visible text = true.
Proof.
  revert c0. induction cells as [|p ps IH]; intros c0; simpl.
  - split; [intros H; inversion H | intros (i & t & _ & H & _); discriminate].
  - rewrite strip_visible.
    assert (Htail : el ∈ extract_cells a b (S c0) ps <->
              exists i text, el = table_cell_element a b (c0 + S i) text
                             /\ ps !! i = Some text /\ visible text = true).
    { rewrite IH. split; intros (i & t & He & Hl & Hv); exists i, t;
        (split; [|auto]); rewrite He; f_equal; lia. }
    destruct (visible p) eqn:Hp.
    + rewrite elem_of_cons, Htail. split.
      * intros [->|(i & t & He & Hl & Hv)].
        -- exists 0%nat, p. rewrite Nat.add_0_r. auto.
        -- exists (S i), t. auto.
      * intros (i & t & He & Hl & Hv). destruct i as [|i].
        -- left. simpl in Hl. injection Hl as ->.
           now rewrite Nat.add_0_r in He.
        -- right. exists i, t. auto.
    + rewrite Htail. split.
      * intros (i & t & He & Hl & Hv). exists (S i), t. auto.
      * intros (i & t & He & Hl & Hv). destruct i as [|i].
        -- simpl in Hl. injection Hl as ->. congruence.
        -- exists i, t. auto.
Qed.

Lemma extract_rows_in (a b0 : nat) (rows : list (list str)) (el : Element) :
  el ∈ extract_rows a b0 rows <->
  exists b c row text,
    el = table_cell_element a (b0 + b) c text
    /\ rows !! b = Some row /\ row !! c = Some text /\ visible text = true.
Proof.
  revert b0. induction rows as [|r rows IH]; intros b0; simpl.
  - split; [intros H; inversion H|].
    intros (b & c & row & t & _ & H & _); discriminate.
  - rewrite elem_of_app, extract_cells_in, IH. split.
    + intros [(c & t & He & Hl & Hv)|(b & c & row & t & He & Hr & Hl & Hv)].
      * exists 0%nat, c, r, t. rewrite Nat.add_0_r. auto.
      * exists (S b), c, row, t. split; [|auto]. rewrite He. f_equal. lia.
    + intros (b & c & row & t & He & Hr & Hl & Hv). destruct b as [|b].
      * left. simpl in Hr. injection Hr as ->. exists c, t.
        rewrite Nat.add_0_r in He. auto.
      * right. exists b, c, row, t. split; [|auto]. rewrite He. f_equal. lia.
Qed.

Lemma extract_tables_in (a0 : nat) (ts : list (list (list str)))
    (el : Element) :
  el ∈ extract_tables a0 ts <->
  exists a b c table row text,
    el = table_cell_element (a0 + a) b c text
    /\ ts !! a = Some table /\ table !! b = Some row
    /\ row !! c = Some text /\ visible text = true.
Proof.
  revert a0. induction ts as [|t ts IH]; intros a0; simpl.
  - split; [intros H; inversion H|].
    intros (a & b & c & table & row & x & _ & H & _); discriminate.
  - rewrite elem_of_app, extract_rows_in, IH. split.
    + intros [(b & c & row & x & He & Hr & Hl & Hv)
             |(a & b & c & table & row & x & He & Ht & Hr & Hl & Hv)].
      * exists 0%nat, b, c, t, row, x. rewrite Nat.add_0_r. auto.
      * exists (S a), b, c, table, row, x. split; [|auto].
        rewrite He. f_equal. lia.
    + intros (a & b & c & table & row & x & He & Ht & Hr & Hl & Hv).
      destruct a as [|a].
      * left. simpl in Ht. injection Ht as ->. exists b, c, row, x.
        rewrite Nat.add_0_r in He. auto.
      * right. exists a, b, c, table, row, x. split; [|auto].
        rewrite He. f_equal. lia.
Qed.

(** X11. The positions [extract_all_text] records are those of the
    document: a paragraph element with index [i] is extracted exactly when
    paragraph [i] has that text and the text is not blank, and a table-cell
    element with table, row and column exactly when that cell of that row
    of that table has that text and the text is not blank. *)
Theorem extract_all_text_positions (document : Document) :
  (forall i text,
      paragraph_element i text ∈ extract_all_text document <->
      paragraphs document !! i = Some text /\ visible text = true)
  /\ (forall a b c text,
        table_cell_element a b c text ∈ extract_all_text document <->
        exists table row,
          tables document !! a = Some table /\ table !! b = Some row
          /\ row !! c = Some text /\ visible text = true).
Proof.
  unfold extract_all_text. split.
  - intros i text. rewrite elem_of_app, extract_paragraphs_in, extract_tables_in.
    split.
    + intros [(j & t & He & Hl & Hv)|(a & b & c & tb & row & x & He & _)].
      * injection He as -> ->. auto.
      * discriminate.
    + intros [Hl Hv]. left. exists i, text. auto.
  - intros a b c text.
    rewrite elem_of_app, extract_paragraphs_in, extract_tables_in. split.
    + intros [(j & t & He & _)|(a' & b' & c' & tb & row & x & He & H)].
      * discriminate.
      * injection He as -> -> -> ->. exists tb, row. exact H.
    + intros (tb & row & H). right. exists a, b, c, tb, row, text. auto.
Qed.

(** ** The output path *)

Lemma replace_all_from_skip (old new : str) (k : nat) (s : str) :
  replace_all_from old new k s = replace_all_from old new 0 (drop k s).
Proof.
  revert k. induction s as [|c s IH]; intros k.
  - now destruct k.
  - destruct k as [|k]; [reflexivity|]. simpl replace_all_from at 1.
    rewrite IH. reflexivity.
Qed.

Lemma replace_all_from_first (o : char) (old' new pre post : str) :
  (forall i, (i < length pre)%nat ->
             ~ occurs_at (o :: old') (pre ++ (o :: old') ++ post) i) ->
  replace_all_from (o :: old') new 0 (pre ++ (o :: old') ++ post)
  = pre ++ new ++ replace_all_from (o :: old') new 0 post.
Proof.
  induction pre as [|c pre IH]; intros Hfirst.
  - assert (Hs : startswith (o :: old') ((o :: old') ++ post) = true)
      by (apply startswith_spec; now exists post).
    change ([] ++ (o :: old') ++ post) with (o :: (old' ++ post)) at 1.
    change ((o :: old') ++ post) with (o :: (old' ++ post)) in Hs.
    simpl replace_all_from at 1. simpl in Hs. rewrite Hs.
    rewrite replace_all_from_skip, Nat.sub_0_r, drop_app_length.
    reflexivity.
  - change ((c :: pre) ++ (o :: old') ++ post)
      with (c :: (pre ++ (o :: old') ++ post)) at 1.
    simpl replace_all_from at 1.
    destruct (startswith (o :: old') (c :: pre ++ (o :: old') ++ post)) eqn:Hs.
    + exfalso. apply (Hfirst 0%nat); [simpl; lia|]. now apply occurs_at_0.
    + simpl in Hs. rewrite Hs. simpl. f_equal. apply IH.
      intros i Hi Hocc. apply (Hfirst (S i)); [simpl; lia|].
      now apply occurs_at_S.
Qed.

Lemma replace_all_from_absent (o : char) (old' new s : str) :
  (forall i, ~ occurs_at (o :: old') s i) ->
  replace_all_from (o :: old') new 0 s = s.
Proof.
  induction s as [|c s IH]; intros Hno; [reflexivity|].
  simpl replace_all_from.
  destruct (startswith (o :: old') (c :: s)) eqn:Hs.
  - exfalso. apply (Hno 0%nat). now apply occurs_at_0.
  - simpl in Hs. rewrite Hs. f_equal. apply IH.
    intros i Hocc. apply (Hno (S i)). now apply occurs_at_S.
Qed.

(** X12. With no [--output], a path in which [.docx] does not occur in
    these very characters (an upper-case [.DOCX], another extension) is
    its own output path: [cmd_replace] saves the anonymized document over
    the input. *)
Theorem output_path_overwrites_input (input : str) (output : option str) :
  output = None \/ output = Some [] ->
  (forall i, ~ occurs_at (py ".docx") input i) ->
  output_path input output = input.
Proof.
  intros Hout Hno. unfold output_path, str_replace.
  assert (H : replace_all_from (py ".docx") (py "_anonymized.docx") 0 input
              = input) by now apply replace_all_from_absent.
  destruct Hout as [-> | ->]; exact H.
Qed.

(** X13. With no [--output], the left-most [.docx] of the input path
    becomes [_anonymized.docx], and what follows it is rewritten in the
    same way: every occurrence is replaced, not just the extension. *)
Theorem output_path_default (pre post : str) (output : option str) :
  output = None \/ output = Some [] ->
  (forall i, (i < length pre)%nat ->
             ~ occurs_at (py ".docx") (pre ++ py ".docx" ++ post) i) ->
  output_path (pre ++ py ".docx" ++ post) output
  = pre ++ py "_anonymized.docx" ++ output_path post output.
Proof.
  intros Hout Hfirst. unfold output_path, str_replace.
  assert (H : replace_all_from (py ".docx") (py "_anonymized.docx") 0
                (pre ++ py ".docx" ++ post)
              = pre ++ py "_anonymized.docx"
                  ++ replace_all_from (py ".docx") (py "_anonymized.docx") 0
                       post)
    by now apply replace_all_from_first.
  destruct Hout as [-> | ->]; exact H.
Qed.

Lemma occurs_at_drop (needle s : str) (i : nat) :
  occurs_at needle s i ->
  startswith needle (drop i s) = true /\ (i <= length s)%nat.
Proof.
  intros (pre & post & -> & <-). split.
  - rewrite drop_app_length. apply startswith_spec. now exists post.
  - rewrite length_app. lia.
Qed.

(** Occurrences are found by trying every index. *)
Lemma no_occurrence_below (needle s : str) (n : nat) :
  forallb (fun i => negb (startswith needle (drop i s))) (seq 0 n) = true ->
  forall i, (i < n)%nat -> ~ occurs_at needle s i.
Proof.
  intros Hall i Hi Hocc. rewrite forallb_forall in Hall.
  apply occurs_at_drop in Hocc as [Hs _].
  specialize (Hall i). rewrite Hs in Hall.
  discriminate Hall. apply in_seq. lia.
Qed.

Lemma no_occurrence (needle s : str) :
  forallb (fun i => negb (startswith needle (drop i s)))
    (seq 0 (S (length s))) = true ->
  forall i, ~ occurs_at needle s i.
Proof.
  intros Hall i Hocc.
  destruct (occurs_at_drop _ _ _ Hocc) as [_ Hle].
  apply (no_occurrence_below needle s (S (length s)) Hall i); [lia | exact Hocc].
Qed.

(** ** The dictionary of the summary *)

Lemma dict_in_get (k : str) (d : Dict) :
  dict_in k d = true <-> dict_get k d <> None.
Proof.
  induction d as [|[k' v] d IH]; simpl.
  - split; [discriminate | congruence].
  - destruct (bool_decide (k' = k)); simpl; [|exact IH].
    split; [discriminate | reflexivity].
Qed.

Lemma dict_get_set (k k' : str) (v : list str) (d : Dict) :
  dict_get k' (dict_set k v d)
  = if bool_decide (k = k') then Some v else dict_get k' d.
Proof.
  induction d as [|[k0 v0] d IH]; simpl.
  - destruct (bool_decide (k = k')); reflexivity.
  - destruct (bool_decide (k0 = k)) eqn:E0; simpl.
    + apply bool_decide_eq_true in E0. subst k0.
      destruct (bool_decide (k = k')); reflexivity.
    + rewrite IH. destruct (bool_decide (k0 = k')) eqn:E1; [|reflexivity].
      apply bool_decide_eq_true in E1. subst k0.
      apply bool_decide_eq_false in E0.
      destruct (bool_decide (k = k')) eqn:E2; [|reflexivity].
      apply bool_decide_eq_true in E2. congruence.
Qed.

Lemma dict_get_append (k k' x : str) (d : Dict) :
  dict_get k' (dict_append k x d)
  = if bool_decide (k = k') then (fun v => v ++ [x]) <$> dict_get k' d
    else dict_get k' d.
Proof.
  induction d as [|[k0 v0] d IH]; simpl.
  - destruct (bool_decide (k = k')); reflexivity.
  - destruct (bool_decide (k0 = k)) eqn:E0; simpl.
    + apply bool_decide_eq_true in E0. subst k0.
      destruct (bool_decide (k = k')); reflexivity.
    + rewrite IH. destruct (bool_decide (k0 = k')) eqn:E1; [|reflexivity].
      apply bool_decide_eq_true in E1. subst k0.
      apply bool_decide_eq_false in E0.
      destruct (bool_decide (k = k')) eqn:E2; [|reflexivity].
      apply bool_decide_eq_true in E2. congruence.
Qed.

Lemma dict_append_keys (k x : str) (d : Dict) :
  map fst (dict_append k x d) = map fst d.
Proof.
  induction d as [|[k0 v0] d IH]; simpl; [reflexivity|].
  destruct (bool_decide (k0 = k)); simpl; [reflexivity | now rewrite IH].
Qed.

Lemma dict_set_keys_new (k : str) (v : list str) (d : Dict) :
  dict_in k d = false -> map fst (dict_set k v d) = map fst d ++ [k].
Proof.
  induction d as [|[k0 v0] d IH]; simpl; [reflexivity|].
  destruct (bool_decide (k0 = k)); simpl; [discriminate|].
  intros H. now rewrite IH.
Qed.

Lemma dict_in_keys (k : str) (d : Dict) :
  dict_in k d = true <-> k ∈ map fst d.
Proof.
  induction d as [|[k0 v0] d IH]; simpl.
  - split; [discriminate | intros H; inversion H].
  - rewrite elem_of_cons, <- IH.
    destruct (bool_decide (k0 = k)) eqn:E; simpl.
    + apply bool_decide_eq_true in E. split; [now left | reflexivity].
    + apply bool_decide_eq_false in E. split; [now right|].
      intros [H|H]; [congruence | exact H].
Qed.

Lemma dict_size_set_new (k : str) (d : Dict) :
  dict_in k d = false -> dict_size (dict_set k [] d) = dict_size d.
Proof.
  induction d as [|[k0 v0] d IH]; simpl; [reflexivity|].
  destruct (bool_decide (k0 = k)); simpl; [discriminate|].
  intros H. unfold dict_size in *. simpl. now rewrite IH.
Qed.

Lemma dict_size_append (k x : str) (d : Dict) :
  dict_in k d = true -> dict_size (dict_append k x d) = S (dict_size d).
Proof.
  induction d as [|[k0 v0] d IH]; simpl; [discriminate|].
  destruct (bool_decide (k0 = k)); simpl.
  - intros _. unfold dict_size. simpl. rewrite length_app. simpl. lia.
  - intros H. unfold dict_size in *. simpl. rewrite IH by exact H. lia.
Qed.

Lemma texts_labelled_snoc (k : str) (seen : list Entity) (e : Entity) :
  texts_labelled k (seen ++ [e])
  = texts_labelled k seen
      ++ (if bool_decide (ent_label e = Some k)
          then [default [] (ent_text e)] else []).
Proof.
  unfold texts_labelled. rewrite filter_app_bool, map_app. simpl.
  destruct (bool_decide (ent_label e = Some k)); reflexivity.
Qed.

Lemma grouped_None (k : str) (seen : list Entity) :
  grouped k seen = None <-> texts_labelled k seen = [].
Proof.
  unfold grouped. destruct (texts_labelled k seen); split; congruence.
Qed.

Lemma grouped_cons (k : str) (x : str) (xs : list str) (seen : list Entity) :
  texts_labelled k seen = x :: xs -> grouped k seen = Some (x :: xs).
Proof. unfold grouped. now intros ->. Qed.

(** ** The loop of [cmd_detect] *)

Section CommandFacts.

Variable Rng : Type.
Variable faker : str -> Rng -> str * Rng.
Variable predict_entities : str -> list str -> list Entity.

Lemma count_entity_spec (e : Entity) (seen : list Entity)
    (summary : nat * Dict) (fake : Fake Rng) (label t : str) :
  summary_inv seen summary ->
  ent_label e = Some label -> ent_text e = Some t ->
  exists summary',
    count_entity e summary fake = Ok (summary', fake)
    /\ summary_inv (seen ++ [e]) summary'.
Proof.
  intros (Hn & Hnd & Hget & Hsize) Hl Ht.
  destruct summary as [n d]. simpl in *.
  unfold count_entity, bind, getitem, ret. rewrite Hl, Ht. simpl.
  eexists. split; [reflexivity|].
  assert (Hlen : length (seen ++ [e]) = S (length seen))
    by (rewrite length_app; simpl; lia).
  assert (Hother : forall k, label <> k ->
            grouped k (seen ++ [e]) = grouped k seen).
  { intros k Hk. unfold grouped. rewrite texts_labelled_snoc, Hl.
    rewrite bool_decide_eq_false_2 by congruence. now rewrite app_nil_r. }
  assert (Hsame : texts_labelled label (seen ++ [e])
                  = texts_labelled label seen ++ [t]).
  { rewrite texts_labelled_snoc, Hl, Ht.
    now rewrite bool_decide_eq_true_2. }
  unfold summary_inv.
  destruct (dict_in label d) eqn:Hin; cbn [fst snd].
  - split; [lia|]. split; [now rewrite dict_append_keys|]. split.
    + intros k. rewrite dict_get_append, Hget.
      destruct (bool_decide (label = k)) eqn:E.
      * apply bool_decide_eq_true in E. subst k.
        apply dict_in_get in Hin. rewrite Hget in Hin.
        unfold grouped in *. rewrite Hsame.
        destruct (texts_labelled label seen) as [|x xs]; [congruence|].
        reflexivity.
      * apply bool_decide_eq_false in E. symmetry. now apply Hother.
    + rewrite dict_size_append by exact Hin. lia.
  - assert (Hnone : dict_get label d = None).
    { destruct (dict_get label d) eqn:G; [|reflexivity].
      assert (dict_in label d = true) by (apply dict_in_get; congruence).
      congruence. }
    assert (Hempty : texts_labelled label seen = []).
    { apply grouped_None. now rewrite <- Hget. }
    assert (Hin' : dict_in label (dict_set label [] d) = true).
    { apply dict_in_get. rewrite dict_get_set.
      now rewrite bool_decide_eq_true_2. }
    split; [lia|]. split; [|split].
    + rewrite dict_append_keys, dict_set_keys_new by exact Hin.
      apply NoDup_app. split; [exact Hnd|]. split; [|apply NoDup_singleton].
      intros k Hk Hk'. apply list_elem_of_singleton in Hk'. subst k.
      apply dict_in_keys in Hk. congruence.
    + intros k. rewrite dict_get_append, dict_get_set.
      destruct (bool_decide (label = k)) eqn:E.
      * apply bool_decide_eq_true in E. subst k. simpl.
        unfold grouped. rewrite Hsame, Hempty. reflexivity.
      * apply bool_decide_eq_false in E. rewrite Hget. symmetry.
        now apply Hother.
    + rewrite dict_size_append by exact Hin'.
      rewrite dict_size_set_new by exact Hin. lia.
Qed.

Lemma count_entities_spec (es : list Entity) :
  forall (seen : list Entity) (summary : nat * Dict) (fake : Fake Rng),
    summary_inv seen summary ->
    if forallb has_label_and_text es
    then exists summary',
           count_entities es summary fake = Ok (summary', fake)
           /\ summary_inv (seen ++ es) summary'
    else exists key,
           count_entities es summary fake = Raise (KeyError key)
           /\ (key = py "label" \/ key = py "text").
Proof.
  induction es as [|e es IH]; intros seen summary fake Hinv.
  - simpl. exists summary. split; [reflexivity|]. now rewrite app_nil_r.
  - simpl forallb. simpl count_entities. unfold bind.
    destruct (has_label_and_text e) eqn:Hk; simpl.
    + unfold has_label_and_text in Hk.
      destruct (ent_label e) as [label|] eqn:Hl; [|discriminate].
      destruct (ent_text e) as [t|] eqn:Ht; [|discriminate].
      destruct (count_entity_spec e seen summary fake label t Hinv Hl Ht)
        as (s1 & Hrun & Hinv1).
      rewrite Hrun. specialize (IH (seen ++ [e]) s1 fake Hinv1).
      rewrite <- app_assoc in IH. exact IH.
    + unfold has_label_and_text in Hk.
      unfold count_entity, bind, getitem, raise.
      destruct (ent_label e) as [label|].
      * destruct (ent_text e); [discriminate|]. simpl.
        exists (py "text"). split; [reflexivity | now right].
      * exists (py "label"). split; [reflexivity | now left].
Qed.

Lemma replace_pii_in_text_outcome (text : str) (entities : list Entity)
    (fake : Fake Rng) :
  if forallb has_label_and_text entities
  then exists out fake',
         replace_pii_in_text faker text entities fake = Ok (out, fake')
  else exists key,
         replace_pii_in_text faker text entities fake = Raise (KeyError key)
         /\ (key = py "label" \/ key = py "text").
Proof.
  destruct (forallb has_label_and_text entities) eqn:Hall.
  - unfold replace_pii_in_text.
    destruct entities as [|e l]; [now exists text, fake|].
    apply redact_loop_returns. rewrite sorted_desc_perm.
    apply Forall_forall. intros x Hx. rewrite forallb_forall in Hall.
    apply list_elem_of_In, Hall in Hx. unfold has_label_and_text in Hx.
    destruct (ent_label x), (ent_text x); try discriminate. split; eauto.
  - assert (Hex : Exists (fun e => has_label_and_text e = false) entities).
    { apply Exists_exists. induction entities as [|e l IH]; [discriminate|].
      simpl in Hall. apply andb_false_iff in Hall as [He|Hl].
      - exists e. split; [constructor | exact He].
      - destruct (IH Hl) as (x & Hx & Hk). exists x.
        split; [now constructor | exact Hk]. }
    unfold replace_pii_in_text.
    destruct entities as [|e l]; [inversion Hex|].
    apply redact_loop_key_error. now rewrite sorted_desc_perm.
Qed.

Lemma detections_snoc (pii_types : list str) (seen : list Element)
    (el : Element) :
  detections predict_entities pii_types (seen ++ [el])
  = detections predict_entities pii_types seen
      ++ (match predict_entities (element_text el) pii_types with
          | [] => []
          | es => [(el, es)]
          end).
Proof.
  unfold detections. rewrite map_app, filter_app_bool. simpl.
  destruct (predict_entities (element_text el) pii_types); reflexivity.
Qed.

Lemma detected_entities_snoc (pii_types : list str) (seen : list Element)
    (el : Element) :
  detected_entities predict_entities pii_types (seen ++ [el])
  = detected_entities predict_entities pii_types seen
      ++ predict_entities (element_text el) pii_types.
Proof.
  unfold detected_entities. rewrite flat_map_app. simpl.
  now rewrite app_nil_r.
Qed.

Lemma detect_element_spec (pii_types : list str) (format : str)
    (el : Element) (seen : list Element) (results : Results)
    (fake : Fake Rng) :
  detect_inv faker predict_entities pii_types format seen results ->
  if forallb has_label_and_text (predict_entities (element_text el) pii_types)
  then exists results' fake',
         detect_element faker predict_entities pii_types format el results fake
         = Ok (results', fake')
         /\ detect_inv faker predict_entities pii_types format
              (seen ++ [el]) results'
         /\ results_document results' = results_document results
         /\ total_elements results' = total_elements results
  else exists key,
         detect_element faker predict_entities pii_types format el results fake
         = Raise (KeyError key)
         /\ (key = py "label" \/ key = py "text").
Proof.
  intros (Hsum & Hfound & Hred).
  unfold detect_element.
  destruct (predict_entities (element_text el) pii_types) as [|e es] eqn:Hp.
  - simpl. exists results, fake. split; [reflexivity|]. split; [|auto].
    unfold detect_inv.
    rewrite detected_entities_snoc, detections_snoc, Hp, !app_nil_r. auto.
  - pose proof (replace_pii_in_text_outcome (element_text el) (e :: es) fake)
      as Hrep.
    destruct (forallb has_label_and_text (e :: es)) eqn:Hkeys.
    + assert (Hstep : exists red f1,
                (if bool_decide (format = py "redacted")
                 then bind (replace_pii_in_text faker (element_text el) (e :: es))
                        (fun r => ret (Some r))
                 else ret None) fake = Ok (red, f1)
                /\ (is_Some red <-> format = py "redacted")
                /\ (forall out, red = Some out ->
                      exists fa fb : Fake Rng,
                        replace_pii_in_text faker (element_text el) (e :: es) fa
                        = Ok (out, fb))).
      { destruct (bool_decide (format = py "redacted")) eqn:Hf.
        - apply bool_decide_eq_true in Hf.
          destruct Hrep as (out & f1 & Hrun).
          exists (Some out), f1. unfold bind, ret. rewrite Hrun.
          split; [reflexivity|]. split; [split; eauto|].
          intros o [= <-]. eauto.
        - apply bool_decide_eq_false in Hf.
          exists None, fake. split; [reflexivity|]. split.
          + split; [intros [x Hx]; discriminate | contradiction].
          + discriminate. }
      destruct Hstep as (red & f1 & Hrun & Hiff & Hout).
      unfold bind at 1. rewrite Hrun.
      pose proof (count_entities_spec (e :: es) _ _ f1 Hsum) as Hcount.
      rewrite Hkeys in Hcount. destruct Hcount as (s1 & Hc & Hinv1).
      unfold bind, ret. rewrite Hc.
      eexists _, f1. split; [reflexivity|]. split; [|auto].
      unfold detect_inv. simpl.
      rewrite detected_entities_snoc, detections_snoc, Hp.
      split; [destruct s1; exact Hinv1|]. split.
      * rewrite !map_app, Hfound. reflexivity.
      * apply Forall_app. split; [exact Hred|].
        constructor; [|constructor]. simpl. split; [exact Hiff | exact Hout].
    + destruct Hrep as (key & Hrun & Hkey).
      destruct (bool_decide (format = py "redacted")) eqn:Hf.
      * exists key. unfold bind. rewrite Hrun. auto.
      * unfold bind at 1. unfold ret at 1.
        pose proof (count_entities_spec (e :: es) _ _ fake Hsum) as Hcount.
        rewrite Hkeys in Hcount. destruct Hcount as (key' & Hc & Hkey').
        exists key'. unfold bind. rewrite Hc. auto.
Qed.

Lemma detect_loop_spec (pii_types : list str) (format : str)
    (content : list Element) :
  forall (seen : list Element) (results : Results) (fake : Fake Rng),
    detect_inv faker predict_entities pii_types format seen results ->
    if forallb has_label_and_text
         (detected_entities predict_entities pii_types content)
    then exists results' fake',
           detect_loop faker predict_entities pii_types format content
             results fake = Ok (results', fake')
           /\ detect_inv faker predict_entities pii_types format
                (seen ++ content) results'
           /\ results_document results' = results_document results
           /\ total_elements results' = total_elements results
    else exists key,
           detect_loop faker predict_entities pii_types format content
             results fake = Raise (KeyError key)
           /\ (key = py "label" \/ key = py "text").
Proof.
  induction content as [|el content IH]; intros seen results fake Hinv.
  - simpl. exists results, fake. rewrite app_nil_r. auto.
  - unfold detected_entities. simpl flat_map. rewrite forallb_app.
    fold (detected_entities predict_entities pii_types content).
    simpl detect_loop. unfold bind.
    pose proof (detect_element_spec pii_types format el seen results fake Hinv)
      as Hel.
    destruct (forallb has_label_and_text
                (predict_entities (element_text el) pii_types)); simpl.
    + destruct Hel as (r1 & f1 & Hrun & Hinv1 & Hdoc & Htot).
      rewrite Hrun. specialize (IH (seen ++ [el]) r1 f1 Hinv1).
      rewrite <- app_assoc in IH. simpl in IH.
      destruct (forallb has_label_and_text
                  (detected_entities predict_entities pii_types content)).
      * destruct IH as (r2 & f2 & Hrun2 & Hinv2 & Hdoc2 & Htot2).
        exists r2, f2. rewrite Hdoc2, Htot2. auto.
      * exact IH.
    + destruct Hel as (key & Hrun & Hkey). rewrite Hrun. eauto.
Qed.

Lemma detect_results_spec (input : str) (pii_types : list str) (format : str)
    (document : Document) (fake : Fake Rng) :
  if forallb has_label_and_text
       (detected_entities predict_entities pii_types
          (extract_all_text document))
  then exists results fake',
         detect_results faker predict_entities input pii_types format
           document fake = Ok (results, fake')
         /\ detect_inv faker predict_entities pii_types format
              (extract_all_text document) results
         /\ results_document results = input
         /\ total_elements results = length (extract_all_text document)
  else exists key,
         detect_results faker predict_entities input pii_types format
           document fake = Raise (KeyError key)
         /\ (key = py "label" \/ key = py "text").
Proof.
  unfold detect_results.
  apply (detect_loop_spec pii_types format (extract_all_text document) []).
  unfold detect_inv, summary_inv. simpl.
  repeat split; try reflexivity; try constructor.
Qed.

(** X14. When [cmd_detect] has filled [results], its summary agrees with
    what the detector found: ['total_pii_instances'] is the number of
    entities found in the extracted elements, ['pii_by_type'] has one key
    for each label found and none else, under a label the matched texts
    of its entities in document order, and so holds as many texts as the
    total says. *)
Theorem detect_results_summary (input : str) (pii_types : list str)
    (format : str) (document : Document) (results : Results)
    (fake fake' : Fake Rng) :
  detect_results faker predict_entities input pii_types format document fake
  = Ok (results, fake') ->
  results_document results = input
  /\ total_elements results = length (extract_all_text document)
  /\ total_pii_instances results
     = length (detected_entities predict_entities pii_types
                 (extract_all_text document))
  /\ dict_size (pii_by_type results) = total_pii_instances results
  /\ NoDup (map fst (pii_by_type results))
  /\ forall label,
       dict_get label (pii_by_type results)
       = grouped label (detected_entities predict_entities pii_types
                          (extract_all_text document)).
Proof.
  intros Hrun.
  pose proof (detect_results_spec input pii_types format document fake) as H.
  destruct (forallb has_label_and_text _).
  - destruct H as (r & f & Hr & ((Hn & Hnd & Hget & Hsize) & _) & Hdoc & Htot).
    rewrite Hrun in Hr. injection Hr as <- <-. simpl in *.
    repeat split; try assumption. congruence.
  - destruct H as (key & Hr & _). congruence.
Qed.

(** X15. When [cmd_detect] has filled [results], ['pii_found'] lists, in
    document order, exactly the extracted elements in which the detector
    found an entity, each with its type, its text and its entities; an
    entry carries ['redacted'] in the redacted format and in no other, and
    the redacted text is an output of [replace_pii_in_text] on the text and
    the entities of the entry. *)
Theorem detect_results_pii_found (input : str) (pii_types : list str)
    (format : str) (document : Document) (results : Results)
    (fake fake' : Fake Rng) :
  detect_results faker predict_entities input pii_types format document fake
  = Ok (results, fake') ->
  map result_triple (pii_found results)
  = map (fun p => (element_type (fst p), element_text (fst p), snd p))
      (detections predict_entities pii_types (extract_all_text document))
  /\ (forall r, r ∈ pii_found results ->
        result_entities r <> []
        /\ (is_Some (redacted r) <-> format = py "redacted")
        /\ forall out, redacted r = Some out ->
             exists f1 f2 : Fake Rng,
               replace_pii_in_text faker (result_text r) (result_entities r) f1
               = Ok (out, f2)).
Proof.
  intros Hrun.
  pose proof (detect_results_spec input pii_types format document fake) as H.
  destruct (forallb has_label_and_text _).
  - destruct H as (r & f & Hr & (_ & Hfound & Hred) & _).
    rewrite Hrun in Hr. injection Hr as <- <-.
    split; [exact Hfound|]. intros x Hx.
    rewrite Forall_forall in Hred. split; [|exact (Hred x Hx)].
    assert (Hin : result_triple x ∈ map result_triple (pii_found results)).
    { apply list_elem_of_In, in_map, list_elem_of_In, Hx. }
    rewrite Hfound in Hin.
    apply list_elem_of_In, in_map_iff in Hin as ([el es] & Heq & Hin).
    unfold detections in Hin. apply filter_In in Hin as [_ Hne].
    unfold result_triple in Heq. simpl in *. injection Heq as _ _ ->.
    intros Hnil. rewrite Hnil in Hne.
    rewrite bool_decide_eq_true_2 in Hne by reflexivity. discriminate.
  - destruct H as (key & Hr & _). congruence.
Qed.

(** X16. The loop of [cmd_detect] fills [results] exactly when every
    entity the detector finds in the extracted elements has the keys
    ['label'] and ['text'], in every output format; otherwise the command
    ends in a [KeyError] for one of the two keys. *)
Theorem detect_results_outcome (input : str) (pii_types : list str)
    (format : str) (document : Document) (fake : Fake Rng) :
  if forallb has_label_and_text
       (detected_entities predict_entities pii_types
          (extract_all_text document))
  then exists results fake',
         detect_results faker predict_entities input pii_types format
           document fake = Ok (results, fake')
  else exists key,
         detect_results faker predict_entities input pii_types format
           document fake = Raise (KeyError key)
         /\ (key = py "label" \/ key = py "text").
Proof.
  pose proof (detect_results_spec input pii_types format document fake) as H.
  destruct (forallb has_label_and_text _).
  - destruct H as (r & f & Hr & _). eauto.
  - exact H.
Qed.

End CommandFacts.

(** ** The loop over the paragraphs in [cmd_replace] *)

Section ReplaceFacts.

Variable Rng : Type.
Variable faker : str -> Rng -> str * Rng.
Variable predict_entities : str -> list str -> list Entity.

Lemma replace_paragraph_step (pii_types : list str) (text : str)
    (assigned : option str) (n : nat) (fake fake' : Fake Rng) :
  replace_paragraph faker predict_entities pii_types text fake
  = Ok ((assigned, n), fake') ->
  match assigned with
  | Some new_text => new_text <> text /\ (0 < n)%nat
  | None => n = 0%nat
  end
  /\ (visible text = false \/ predict_entities text pii_types = [] ->
      assigned = None).
Proof.
  unfold replace_paragraph. rewrite strip_visible.
  destruct (visible text) eqn:Hv.
  - destruct (predict_entities text pii_types) as [|e es] eqn:Hp.
    + intros [= <- <- <-]. auto.
    + unfold bind.
      destruct (replace_pii_in_text faker text (e :: es) fake)
        as [[new f1]|]; [|discriminate].
      destruct (bool_decide (new <> text)) eqn:Hne.
      * intros [= <- <- <-]. apply bool_decide_eq_true in Hne.
        split; [split; [exact Hne | simpl; lia]|].
        intros [H|H]; discriminate.
      * intros [= <- <- <-]. split; [reflexivity|]. auto.
  - intros [= <- <- <-]. auto.
Qed.

(** X17. A paragraph is assigned a text only if it is not blank and the
    detector finds an entity in it, and then the text assigned is the
    output of [replace_pii_in_text] on it, differs from its own text, and
    [replacements_made] grows by the number of entities found, not by the
    number of texts replaced; a paragraph that is not assigned counts
    nothing. *)
Theorem replace_paragraph_assignment (pii_types : list str) (text : str)
    (assigned : option str) (n : nat) (fake fake' : Fake Rng) :
  replace_paragraph faker predict_entities pii_types text fake
  = Ok ((assigned, n), fake') ->
  (assigned = None -> n = 0%nat)
  /\ (forall new_text, assigned = Some new_text ->
        new_text <> text
        /\ visible text = true
        /\ n = length (predict_entities text pii_types)
        /\ (0 < n)%nat
        /\ replace_pii_in_text faker text (predict_entities text pii_types) fake
           = Ok (new_text, fake'))
  /\ (visible text = false \/ predict_entities text pii_types = [] ->
      assigned = None /\ fake' = fake).
Proof.
  unfold replace_paragraph. rewrite strip_visible.
  assert (Hnone : forall f, @ret Rng (option str * nat) (None, 0%nat) f
                            = Ok (assigned, n, fake') ->
            assigned = None /\ n = 0%nat /\ f = fake').
  { intros f [= <- <- <-]. auto. }
  destruct (visible text) eqn:Hv.
  - destruct (predict_entities text pii_types) as [|e es] eqn:Hp.
    + intros H. apply Hnone in H as (-> & -> & ->).
      split; [reflexivity|]. split; [discriminate | auto].
    + unfold bind.
      destruct (replace_pii_in_text faker text (e :: es) fake)
        as [[new f1]|] eqn:Hrun; [|discriminate].
      destruct (bool_decide (new <> text)) eqn:Hne.
      * intros [= <- <- <-]. apply bool_decide_eq_true in Hne.
        split; [discriminate|]. split.
        -- intros x [= <-]. simpl. repeat split; auto. lia.
        -- intros [H|H]; discriminate.
      * intros H. apply Hnone in H as (-> & -> & ->).
        split; [reflexivity|]. split; [discriminate|].
        intros [H|H]; discriminate.
  - intros H. apply Hnone in H as (-> & -> & ->).
    split; [reflexivity|]. split; [discriminate | auto].
Qed.

(** X18. When the loop over the paragraphs ends, there are as many
    paragraphs as before, the blank ones and those without entity have
    their text, and [replacements_made] has not decreased: it is what it
    was exactly when no paragraph has changed. *)
Theorem replace_paragraphs_count (pii_types : list str) (ps : list str) :
  forall (replacements_made : nat) (ps' : list str) (total : nat)
         (fake fake' : Fake Rng),
    replace_paragraphs faker predict_entities pii_types ps replacements_made
      fake = Ok ((ps', total), fake') ->
    length ps' = length ps
    /\ (replacements_made <= total)%nat
    /\ (total = replacements_made <-> ps' = ps)
    /\ (forall i text, ps !! i = Some text ->
          visible text = false \/ predict_entities text pii_types = [] ->
          ps' !! i = Some text).
Proof.
  induction ps as [|text ps IH]; intros n ps' total fake fake'.
  - simpl. intros [= <- <-].
    repeat split; auto; try (intros i text H; discriminate).
  - simpl. unfold bind.
    destruct (replace_paragraph faker predict_entities pii_types text fake)
      as [[[assigned k] f1]|] eqn:Hstep; [|discriminate].
    simpl.
    destruct (replace_paragraphs faker predict_entities pii_types ps (n + k) f1)
      as [[[rest' t] f2]|] eqn:Hrest; [|discriminate].
    intros [= <- <- <-]. simpl.
    destruct (IH _ _ _ _ _ Hrest) as (Hlen & Hle & Hiff & Hblank).
    destruct (replace_paragraph_step _ _ _ _ _ _ Hstep) as (Hs & Hb).
    split; [now rewrite Hlen|]. split; [lia|]. split.
    + destruct assigned as [new|]; simpl.
      * destruct Hs as (Hne & Hpos).
        split; [lia|]. intros [= H _]. contradiction.
      * rewrite Hs in *. rewrite Nat.add_0_r in *.
        rewrite Hiff. split; [now intros -> | now intros [= ->]].
    + intros i x Hi Hx. destruct i as [|i]; simpl in *.
      * injection Hi as ->. rewrite (Hb Hx). reflexivity.
      * now apply Hblank.
Qed.

End ReplaceFacts.

(** The order of the input list shows whatever the database: two empty
    spans at one offset have no character to look up, and the two orders
    of the list give two outputs. *)
Lemma empty_spans_at_one_offset :
  replace_pii_in_text no_faker (py "ab") [empty_name; empty_ssn] None
  = Ok (py "a123-45-6789John Doeb", None)
  /\ replace_pii_in_text no_faker (py "ab") [empty_ssn; empty_name] None
     = Ok (py "aJohn Doe123-45-6789b", None).
Proof.
  split; reflexivity.
Qed.

End Facts.

(** * Sample runs

    The theorems at sample inputs, with the database that knows the ASCII
    range alone: the inputs are ASCII. *)

Section Samples.

Local Existing Instance ascii_unicode.

Lemma groups_within_ALL_PII_TYPES_witness :
  py "cvv" ∈ PCI_GROUP /\ py "cvv" ∈ ALL_PII_TYPES.
Proof.
  assert (Hin : py "cvv" ∈ PCI_GROUP).
  { decide_by_computation. }
  split; [exact Hin|].
  apply (groups_within_ALL_PII_TYPES (py "cvv")). right. right. exact Hin.
Defined.

Lemma get_pii_types_passes_tokens_through_witness :
  get_pii_types
    {| pii_types := Some [py "phone_number"; py "ssn"];
       pii := false; phi := false; pci := false |}
  = [py "phone number"; py "ssn"].
Proof.
  refine (proj1 (get_pii_types_passes_tokens_through
                   {| pii_types := Some [py "phone_number"; py "ssn"];
                      pii := false; phi := false; pci := false |}
                   [py "phone_number"; py "ssn"] eq_refl _)).
  discriminate.
Defined.

(** C5, as stated, fails: the explicit token [made_up_type] normalizes to
    ["made up type"], which is no category of [ALL_PII_TYPES], and
    [get_pii_types] returns it all the same. *)
Lemma get_pii_types_unknown_token_accepted :
  (replace_char "_" " " (py "made_up_type") ∉ ALL_PII_TYPES)
  /\ get_pii_types {| pii_types := Some [py "made_up_type"];
                      pii := false; phi := false; pci := false |}
     = [py "made up type"].
Proof.
  split; [|reflexivity].
  decide_by_computation.
Qed.

Lemma get_replacement_unregistered_witness :
  get_replacement no_faker (py "unregistered category xyz") (py "Jane") None
  = Ok (py "[UNREGISTERED_CATEGORY_XYZ]", None).
Proof.
  refine (proj1 (get_replacement_unregistered unit no_faker
                   (py "unregistered category xyz") (py "Jane") None _)).
  decide_by_computation.
Defined.

Lemma redact_entity_capitalization_witness :
  replace_pii_in_text no_faker (py "JOHN SMITH")
    [mk_entity "name" "JOHN SMITH" (Some 0) (Some 10)] None
  = Ok (py "JOHN DOE", None).
Proof.
  destruct (redact_entity_capitalization unit no_faker
              (mk_entity "name" "JOHN SMITH" (Some 0) (Some 10))
              (py "name") (py "JOHN SMITH") (py "JOHN SMITH") (py "John Doe")
              None None eq_refl eq_refl eq_refl)
    as (cased & Hrun & Hlist & Hupper & _).
  rewrite Hlist, Hrun, Hupper; [reflexivity|].
  apply str_isupper_spec. reflexivity.
Defined.

Lemma redact_entity_splice_witness :
  redact_entity no_faker contact_name contact_text None
  = Ok (py "Contact John Doe at jane@x.com", None)
  /\ redact_entity no_faker (mk_entity "name" "Jane Doe" None None)
       contact_text None
     = Ok (py "Contact John Doe at jane@x.com", None).
Proof.
  split.
  - exact (proj1 (proj1 (redact_entity_splice unit no_faker contact_name
                           (py "name") (py "Jane Doe") contact_text
                           (py "John Doe") (py "John Doe") None None
                           eq_refl eq_refl eq_refl eq_refl)
                    8 16 eq_refl eq_refl)).
  - exact (proj1 (proj1 (proj2 (redact_entity_splice unit no_faker
                                  (mk_entity "name" "Jane Doe" None None)
                                  (py "name") (py "Jane Doe") contact_text
                                  (py "John Doe") (py "John Doe") None None
                                  eq_refl eq_refl eq_refl eq_refl))
                    (or_introl eq_refl))).
Defined.

Lemma replace_pii_in_text_keeps_untouched_witness :
  forallb (valid_offsets contact_text) [contact_name; contact_email] = true
  /\ pairwise_non_overlapping [contact_name; contact_email] = true
  /\ untouched contact_text [contact_name; contact_email] = py "Contact  at "
  /\ exists out fake',
       replace_pii_in_text no_faker contact_text
         [contact_name; contact_email] None = Ok (out, fake')
       /\ untouched contact_text [contact_name; contact_email]
            `sublist_of` out.
Proof.
  split; [reflexivity|]. split; [reflexivity|]. split; [reflexivity|].
  apply (replace_pii_in_text_keeps_untouched unit no_faker contact_text
           [contact_name; contact_email] None); reflexivity.
Defined.

Lemma replace_pii_in_text_returns_witness :
  forallb (well_formed contact_text) [contact_name; contact_email] = true
  /\ exists out fake',
       replace_pii_in_text no_faker contact_text
         [contact_name; contact_email] None = Ok (out, fake').
Proof.
  split; [vm_compute; reflexivity|].
  apply (replace_pii_in_text_returns unit no_faker contact_text
           [contact_name; contact_email] None).
  vm_compute. reflexivity.
Defined.

Lemma replace_pii_in_text_permutation_witness :
  replace_pii_in_text no_faker contact_text [contact_name; contact_email] None
  = replace_pii_in_text no_faker contact_text [contact_email; contact_name] None.
Proof.
  apply (replace_pii_in_text_permutation unit no_faker contact_text
           [contact_name; contact_email] [contact_email; contact_name] None).
  - reflexivity.
  - reflexivity.
  - repeat constructor; rewrite ?list_elem_of_In; simpl; intuition discriminate.
  - apply Permutation_swap.
Defined.

(** C3, as stated, fails.  Two empty spans at offset 1 of ["ab"] are valid
    and overlap nothing, yet the stable sort keeps them in the order of the
    input list, and the later one is spliced in front of the earlier one:
    the two orders of the list give two outputs, without Faker. *)
Lemma replace_pii_in_text_order_dependent :
  forallb (valid_offsets (py "ab")) [empty_name; empty_ssn] = true
  /\ forallb (well_formed (py "ab")) [empty_name; empty_ssn] = true
  /\ pairwise_non_overlapping [empty_name; empty_ssn] = true
  /\ [empty_name; empty_ssn] ≡ₚ [empty_ssn; empty_name]
  /\ replace_pii_in_text no_faker (py "ab") [empty_name; empty_ssn] None
     = Ok (py "a123-45-6789John Doeb", None)
  /\ replace_pii_in_text no_faker (py "ab") [empty_ssn; empty_name] None
     = Ok (py "aJohn Doe123-45-6789b", None)
  /\ replace_pii_in_text no_faker (py "ab") [empty_name; empty_ssn] None
     <> replace_pii_in_text no_faker (py "ab") [empty_ssn; empty_name] None.
Proof.
  repeat split; try reflexivity.
  - apply Permutation_swap.
  - vm_compute. discriminate.
Qed.

Lemma replace_pii_in_text_weave_witness :
  replace_pii_in_text no_faker contact_text [contact_name; contact_email] None
  = Ok (py "Contact John Doe at user@example.com", None).
Proof.
  exact (replace_pii_in_text_weave unit no_faker contact_text
           [contact_name; contact_email]
           [py "user@example.com"; py "John Doe"] None None
           eq_refl eq_refl eq_refl eq_refl).
Defined.

Lemma preserve_capitalization_case_only_witness :
  is_ascii (py "Jane roe")
  /\ length (py "Jane roe") = length (py "jane roe")
  /\ str_upper (py "Jane roe") = str_upper (py "jane roe").
Proof.
  refine (proj2 (preserve_capitalization_case_only unit (py "John")
                   (py "jane roe") (py "Jane roe") None None _ eq_refl)).
  apply py_is_ascii_check. reflexivity.
Defined.

Lemma get_pii_types_flags_in_taxonomy_witness :
  py "cvv" ∈ ALL_PII_TYPES.
Proof.
  apply (get_pii_types_flags_in_taxonomy
           {| pii_types := None; pii := false; phi := false; pci := true |}).
  - now left.
  - decide_by_computation.
Defined.

Lemma get_pii_types_underscore_form_witness :
  get_pii_types {| pii_types := Some [py "phone_number"];
                   pii := false; phi := false; pci := false |}
  = [py "phone number"].
Proof.
  refine (get_pii_types_underscore_form (py "phone number")
            false false false _).
  decide_by_computation.
Defined.

Lemma taxonomy_has_generators_witness :
  py "ssn" ∈ registered_categories.
Proof.
  refine (proj1 (taxonomy_has_generators (py "ssn") _)).
  decide_by_computation.
Defined.

Lemma output_path_overwrites_input_witness :
  output_path (py "REPORT.DOCX") None = py "REPORT.DOCX".
Proof.
  apply (output_path_overwrites_input (py "REPORT.DOCX") None).
  - now left.
  - apply no_occurrence. reflexivity.
Defined.

Lemma output_path_default_witness :
  output_path (py "report.docx") None = py "report_anonymized.docx".
Proof.
  refine (output_path_default (py "report") [] None _ _).
  - now left.
  - apply (no_occurrence_below _ (py "report.docx") 6). reflexivity.
Defined.

Lemma detect_results_summary_witness :
  match detect_results no_faker contact_detector (py "contact.docx")
          ALL_PII_TYPES (py "json") contact_document None with
  | Ok (results, _) =>
      total_elements results = 1%nat
      /\ total_pii_instances results = 2%nat
      /\ dict_get (py "name") (pii_by_type results) = Some [py "Jane Doe"]
  | Raise _ => False
  end.
Proof.
  destruct (detect_results no_faker contact_detector (py "contact.docx")
              ALL_PII_TYPES (py "json") contact_document None)
    as [[results f]|e] eqn:E.
  - destruct (detect_results_summary unit no_faker contact_detector _ _ _ _ _ _ _ E)
      as (_ & Hel & Htot & _ & _ & Hget).
    split; [exact Hel|]. split; [exact Htot|]. exact (Hget (py "name")).
  - vm_compute in E. discriminate.
Defined.

Lemma detect_results_pii_found_witness :
  match detect_results no_faker contact_detector (py "contact.docx")
          ALL_PII_TYPES (py "redacted") contact_document None with
  | Ok (results, _) =>
      map result_triple (pii_found results)
      = [(py "paragraph", contact_text, [contact_name; contact_email])]
  | Raise _ => False
  end.
Proof.
  destruct (detect_results no_faker contact_detector (py "contact.docx")
              ALL_PII_TYPES (py "redacted") contact_document None)
    as [[results f]|e] eqn:E.
  - exact (proj1 (detect_results_pii_found unit no_faker contact_detector
                    _ _ _ _ _ _ _ E)).
  - vm_compute in E. discriminate.
Defined.

Lemma replace_paragraph_assignment_witness :
  replace_pii_in_text no_faker contact_text
    (contact_detector contact_text ALL_PII_TYPES) None
  = Ok (py "Contact John Doe at user@example.com", None).
Proof.
  refine (proj2 (proj2 (proj2 (proj2
            (proj1 (proj2 (replace_paragraph_assignment unit no_faker
                             contact_detector ALL_PII_TYPES contact_text
                             (Some (py "Contact John Doe at user@example.com"))
                             2 None None _))
               _ eq_refl))))).
  vm_compute. reflexivity.
Defined.

Lemma replace_paragraphs_count_witness :
  length [py "Contact John Doe at user@example.com"; py "  "]
  = length (paragraphs contact_document)
  /\ (0 <= 2)%nat.
Proof.
  destruct (replace_paragraphs_count unit no_faker contact_detector
              ALL_PII_TYPES (paragraphs contact_document) 0
              [py "Contact John Doe at user@example.com"; py "  "] 2
              None None)
    as (Hlen & Hle & _).
  - vm_compute. reflexivity.
  - split; [exact Hlen | exact Hle].
Defined.

End Samples.

(** * Sample runs beyond ASCII

    The same functions on texts with characters above the ASCII range,
    with a database that knows these characters. *)

Section SamplesBeyondASCII.

Local Existing Instance beyond_unicode.

(** ['n\u00famero'] has no generator: the placeholder is
    ['[N\u00daMERO]']. *)
Lemma get_replacement_numero :
  get_replacement no_faker [110; 250; 109; 101; 114; 111]%N (py "x") None
  = Ok ([91; 78; 218; 77; 69; 82; 79; 93]%N, None).
Proof.
  vm_compute. reflexivity.
Qed.

(** ['stra\u00dfe'.upper()] is ['STRASSE'], one character longer. *)
Lemma str_upper_strasse :
  str_upper (py "stra" ++ [223%N] ++ py "e") = py "STRASSE".
Proof.
  reflexivity.
Qed.

(** A match that starts with the upper-case U+00C9 has the first character
    of the replacement up-cased. *)
Lemma preserve_capitalization_Eric :
  preserve_capitalization (201%N :: py "ric") (py "user@example.com")
    (None : Fake unit)
  = Ok (py "User@example.com", None).
Proof.
  reflexivity.
Qed.

(** ['JOS\u00e9'] has a lower-case character: it is not entirely
    upper-case, and the first character of the replacement alone is
    up-cased. *)
Lemma preserve_capitalization_JOSe :
  str_isupper (py "JOS" ++ [233%N]) = false
  /\ preserve_capitalization (py "JOS" ++ [233%N]) (py "user@example.com")
       (None : Fake unit)
     = Ok (py "User@example.com", None).
Proof.
  split; reflexivity.
Qed.

(** A paragraph of U+00A0 and U+0085 alone is blank: [str.strip] leaves
    nothing of it, and [extract_all_text] leaves it out. *)
Lemma extract_all_text_no_break_space :
  str_strip [160; 133]%N = []
  /\ extract_all_text {| paragraphs := [[160; 133]%N; py "a"]; tables := [] |}
     = [paragraph_element 1 (py "a")].
Proof.
  split; reflexivity.
Qed.

End SamplesBeyondASCII.
